(** * go-metrics-influxdb: the InfluxDB reporter of [influxdb.go]

    A shallow embedding of the reporter: construction
    ([InfluxDB], [InfluxDBWithTags], [makeClient]), one iteration of the
    run loop ([run_select]), the per-tick [send] with its translation of
    registry entries into points and its batched writes, and [bucketTags].

    Go values are embedded as follows.
    - [int], [int64], [time.Duration]: [Z]; the arithmetic of the batch
      loop is wrapped to 64 bits ([wrap_int]).
    - [float64]: Rocq's primitive binary64 [float].
    - [string]: [string]; [fmt.Sprintf("%s.count", name)] is [name +:+ ".count"].
    - [map[string]string]: a reference ([mapref]) into a store of map
      objects ([heap]), since Go maps are shared by reference; [nil] is the
      nil map.  Map contents are [gmap string string].
    - the order of a [range] over a map is not specified by Go: it is taken
      from an oracle ([range_order]) that returns some permutation of the
      entries, and may answer differently at each loop.
    - the registry, the clock, the URL parser and the InfluxDB client are
      outside the file: the registry is the sequence of entries [Each]
      visits, the clock reading is an argument, and the parser and client
      are the operations of the class [Env]. *)

From Stdlib Require Import ZArith Lia.
From Stdlib.Floats Require Import PrimFloat FloatOps SpecFloat.
From stdpp Require Import base strings gmap list.

(** ** Values of the Go program *)

(** An [error], by the text its [Error()] method returns. *)
Definition error : Type := string.

(** [float64(x)] for an [int64] [x]: rounding to nearest, ties to even. *)
Definition float64_of_int64 (z : Z) : float :=
  SF2Prim (binary_normalize 53 1024 z 0 false).

(** The native [int]: 64 bits, two's complement. *)
Definition wrap_int (z : Z) : Z :=
  ((z + 2 ^ 63) `mod` 2 ^ 64 - 2 ^ 63)%Z.

Definition max_int : Z := (2 ^ 63 - 1)%Z.

(** What the points' [interface{}] field values hold. *)
Inductive iface : Type :=
  | Int64 (z : Z)
  | Float64 (f : float).

Module time.
(** A [time.Time], as the nanoseconds elapsed since Go's zero time; a
    [time.Duration] is a number of nanoseconds. *)
Definition Time : Type := Z.
Definition Duration : Type := Z.

(** [t.Truncate(d)]: [t] rounded down to a multiple of [d] since the zero
    time, and [t] itself when [d <= 0]. *)
Definition Truncate (t : Time) (d : Duration) : Time :=
  if (d <=? 0)%Z then t else (t - t `mod` d)%Z.
End time.

(** A map value: [None] is the nil map, [Some l] the map object at [l]. *)
Definition mapref : Type := option nat.

(** [client.Point] (its [Precision] and [Raw] stay at their zero values). *)
Record Point : Type := mkPoint {
  Measurement : string;
  Tags : mapref;
  Fields : gmap string iface;
  Time : time.Time;
}.

(** [client.BatchPoints], with the two fields the reporter sets. *)
Record BatchPoints : Type := mkBatchPoints {
  Points : list Point;
  Database : string;
}.

(** ** Snapshots of the registry's metrics *)

Record HistogramSnapshot : Type := {
  h_Count : Z;
  h_Max : Z;
  h_Mean : float;
  h_Min : Z;
  h_StdDev : float;
  h_Variance : float;
  h_Percentiles : list float → list float;
}.

Record MeterSnapshot : Type := {
  m_Count : Z;
  m_Rate1 : float;
  m_Rate5 : float;
  m_RateMean : float;
}.

Record TimerSnapshot : Type := {
  t_Count : Z;
  t_Max : Z;
  t_Mean : float;
  t_Min : Z;
  t_StdDev : float;
  t_Variance : float;
  t_Percentiles : list float → list float;
  t_Rate1 : float;
  t_Rate5 : float;
  t_RateMean : float;
}.

(** The dynamic type of a registry entry, with the snapshot [send] takes of
    it. [Other] is any value that matches no case of the type switch. *)
Inductive Metric : Type :=
  | Counter (count : Z)
  | Gauge (value : Z)
  | GaugeFloat64 (value : float)
  | Histogram (ms : HistogramSnapshot)
  | Meter (ms : MeterSnapshot)
  | Timer (ms : TimerSnapshot)
  | Other.

(** The entries in the order [Registry.Each] visits them. *)
Definition Registry : Type := list (string * Metric).

(** ** The environment: URL parser, InfluxDB client, map iteration order *)

Class Env : Type := {
  URL : Type;
  Client : Type;
  (** the network and the server behind the client *)
  Remote : Type;
  url_Parse : string → URL + error;
  client_NewClient : URL → string → string → bool → option Client * option error;
  client_Write : Client → BatchPoints → Remote → Remote * option error;
  client_Ping : Client → Remote → Remote * option error;
  (** the order of the [n]-th [range] loop over a map *)
  range_order : nat → ∀ A : Type, list A → list A;
  range_order_perm : ∀ n A (l : list A), range_order n A l ≡ₚ l;
}.

Section Reporter.
Context `{E : Env}.

(** The calls that leave the reporter, in the order they are made. *)
Inductive event : Type :=
  | EvLog (msg : string)
  | EvNewClient (c : option Client) (err : option error)
  | EvPing (c : Client) (err : option error)
  | EvWrite (c : Client) (bps : BatchPoints) (err : option error).

Record World : Type := mkWorld {
  heap : list (gmap string string);
  remote : Remote;
  ranges : nat;
  trace : list event;
}.

Definition set_heap (h : list (gmap string string)) (w : World) : World :=
  mkWorld h (remote w) (ranges w) (trace w).
Definition set_remote (r : Remote) (w : World) : World :=
  mkWorld (heap w) r (ranges w) (trace w).
Definition add_event (e : event) (w : World) : World :=
  mkWorld (heap w) (remote w) (ranges w) (trace w ++ [e]).

(** ** Computations: state, panics, fuel *)

Inductive result (A : Type) : Type :=
  | Done (a : A) (w : World)
  | Panic (msg : string) (w : World)
  | OutOfFuel.
Arguments Done {A} a w.
Arguments Panic {A} msg w.
Arguments OutOfFuel {A}.

Definition M (A : Type) : Type := World → result A.

Definition ret {A} (a : A) : M A := λ w, Done a w.

Definition bind {A B} (c : M A) (k : A → M B) : M B :=
  λ w, match c w with
       | Done a w' => k a w'
       | Panic msg w' => Panic msg w'
       | OutOfFuel => OutOfFuel
       end.

Definition panic {A} (msg : string) : M A := λ w, Panic msg w.

Notation "'do' x <- c ; k" := (bind c (λ x, k))
  (at level 10, x pattern, c at level 100, k at level 200).
Notation "c ;;; k" := (bind c (λ _, k))
  (at level 100, k at level 200, right associativity).

Fixpoint for_each {A} (l : list A) (body : A → M unit) : M unit :=
  match l with
  | [] => ret tt
  | x :: l' => body x ;;; for_each l' body
  end.

(** ** Map objects *)

(** What a map value reads as: the nil map reads as the empty map. *)
Definition deref (h : list (gmap string string)) (m : mapref)
  : option (gmap string string) :=
  match m with
  | None => Some ∅
  | Some l => h !! l
  end.

(** [map[string]string{}] *)
Definition map_make : M mapref :=
  λ w, Done (Some (length (heap w))) (set_heap (heap w ++ [∅]) w).

Definition map_read (m : mapref) : M (gmap string string) :=
  λ w, match deref (heap w) m with
       | Some t => Done t w
       | None => Panic "invalid map reference" w
       end.

(** [m[k] = v] *)
Definition map_assign (m : mapref) (k v : string) : M unit :=
  λ w, match m with
       | None => Panic "assignment to entry in nil map" w
       | Some l =>
           match heap w !! l with
           | Some t => Done tt (set_heap (<[l := <[k := v]> t]> (heap w)) w)
           | None => Panic "invalid map reference" w
           end
       end.

(** The entries of a map in the order the next [range] loop visits them. *)
Definition map_range {V} (t : gmap string V) : M (list (string * V)) :=
  λ w, Done (range_order (ranges w) _ (map_to_list t))
            (mkWorld (heap w) (remote w) (S (ranges w)) (trace w)).

(** ** [bucketTags] *)

Definition bucketTags (bucket : string) (tags : mapref) : M mapref :=
  do m <- map_make;
  do t <- map_read tags;
  do kvs <- map_range t;
  for_each kvs (λ '(tk, tv), map_assign m tk tv) ;;;
  map_assign m "bucket" bucket ;;;
  ret m.

(** ** The reporter *)

(** The [reporter] struct. Its [reg] field is the handle of the registry,
    which lives outside: what [Each] visits at a tick is an argument of
    [send]. [client] is a pointer, [None] when nil. *)
Record reporter : Type := mkReporter {
  interval : time.Duration;
  align : bool;
  url : URL;
  database : string;
  unsafeSsl : bool;
  maxBatchSize : Z;
  measurement : string;
  username : string;
  password : string;
  tags : mapref;
  client : option Client;
}.

Definition set_client (c : option Client) (r : reporter) : reporter :=
  mkReporter (interval r) (align r) (url r) (database r) (unsafeSsl r)
    (maxBatchSize r) (measurement r) (username r) (password r) (tags r) c.

Definition log_Printf (msg : string) : M unit :=
  λ w, Done tt (add_event (EvLog msg) w).

(** [makeClient] assigns whatever [client.NewClient] returns to [r.client],
    also when it returns an error. *)
Definition makeClient (r : reporter) : M (reporter * option error) :=
  λ w, let '(c, err) :=
         client_NewClient (url r) (username r) (password r) (unsafeSsl r) in
       Done (set_client c r, err) (add_event (EvNewClient c err) w).

(** *** [send]: from registry entries to points *)

#[warnings="-inexact-float"]
Definition quantiles : list float := [0.5; 0.75; 0.95; 0.99]%float.

(** [ps[i]] *)
Definition index (ps : list float) (i : nat) : M float :=
  match ps !! i with
  | Some x => ret x
  | None => panic "index out of range"
  end.

(** The three loops [for k, v := range fields] of [send], which differ in
    the field key only: one point per entry, appended to [pts]. *)
Fixpoint range_fields (r : reporter) (now : time.Time) (key : string)
    (kvs : list (string * float)) (pts : list Point) : M (list Point) :=
  match kvs with
  | [] => ret pts
  | (k, v) :: kvs' =>
      do tg <- bucketTags k (tags r);
      range_fields r now key kvs'
        (pts ++ [mkPoint (measurement r) tg {[ key := Float64 v ]} now])
  end.

(** The map literals [fields] of [send], entry by entry. *)
Definition histogram_fields (ms : HistogramSnapshot) (p50 p75 p95 p99 : float)
  : list (string * float) :=
  [("count", float64_of_int64 (h_Count ms));
   ("max", float64_of_int64 (h_Max ms));
   ("mean", h_Mean ms);
   ("min", float64_of_int64 (h_Min ms));
   ("stddev", h_StdDev ms);
   ("variance", h_Variance ms);
   ("p50", p50);
   ("p75", p75);
   ("p95", p95);
   ("p99", p99)].

Definition meter_fields (ms : MeterSnapshot) : list (string * float) :=
  [("count", float64_of_int64 (m_Count ms));
   ("m1", m_Rate1 ms);
   ("m5", m_Rate5 ms);
   ("mean", m_RateMean ms)].

Definition timer_fields (ms : TimerSnapshot) (p50 p75 p95 p99 : float)
  : list (string * float) :=
  [("count", float64_of_int64 (t_Count ms));
   ("max", float64_of_int64 (t_Max ms));
   ("mean", t_Mean ms);
   ("min", float64_of_int64 (t_Min ms));
   ("stddev", t_StdDev ms);
   ("variance", t_Variance ms);
   ("p50", p50);
   ("p75", p75);
   ("p95", p95);
   ("p99", p99);
   ("m1", t_Rate1 ms);
   ("m5", t_Rate5 ms);
   ("meanrate", t_RateMean ms)].

(** The function [send] passes to [Each]: the type switch. *)
Definition visit (r : reporter) (now : time.Time) (pts : list Point)
    (name : string) (i : Metric) : M (list Point) :=
  match i with
  | Counter count =>
      ret (pts ++ [mkPoint (measurement r) (tags r)
                     {[ name +:+ ".count" := Int64 count ]} now])
  | Gauge value =>
      ret (pts ++ [mkPoint (measurement r) (tags r)
                     {[ name +:+ ".gauge" := Int64 value ]} now])
  | GaugeFloat64 value =>
      ret (pts ++ [mkPoint (measurement r) (tags r)
                     {[ name +:+ ".gauge" := Float64 value ]} now])
  | Histogram ms =>
      let ps := h_Percentiles ms quantiles in
      do p50 <- index ps 0;
      do p75 <- index ps 1;
      do p95 <- index ps 2;
      do p99 <- index ps 3;
      let fields : gmap string float :=
        list_to_map (histogram_fields ms p50 p75 p95 p99) in
      do kvs <- map_range fields;
      range_fields r now (name +:+ ".histogram") kvs pts
  | Meter ms =>
      let fields : gmap string float := list_to_map (meter_fields ms) in
      do kvs <- map_range fields;
      range_fields r now (name +:+ ".meter") kvs pts
  | Timer ms =>
      let ps := t_Percentiles ms quantiles in
      do p50 <- index ps 0;
      do p75 <- index ps 1;
      do p95 <- index ps 2;
      do p99 <- index ps 3;
      let fields : gmap string float :=
        list_to_map (timer_fields ms p50 p75 p95 p99) in
      do kvs <- map_range fields;
      range_fields r now (name +:+ ".timer") kvs pts
  | Other => ret pts
  end.

(** [r.reg.Each(f)]: [f] is called on every entry; it appends to the
    [pts] it closes over. *)
Fixpoint Each (reg : Registry)
    (f : list Point → string → Metric → M (list Point))
    (pts : list Point) : M (list Point) :=
  match reg with
  | [] => ret pts
  | (name, i) :: reg' => do pts' <- f pts name i; Each reg' f pts'
  end.

(** The instant the points of a tick carry, from the clock reading. *)
Definition timestamp (r : reporter) (wall : time.Time) : time.Time :=
  if align r then time.Truncate wall (interval r) else wall.

(** The first half of [send]: the points of the tick. *)
Definition collect (r : reporter) (wall : time.Time) (reg : Registry)
  : M (list Point) :=
  Each reg (visit r (timestamp r wall)) [].

(** *** [send]: the batched writes *)

Definition len {A} (l : list A) : Z := Z.of_nat (length l).

(** [l[lo:hi]] *)
Definition slice {A} (l : list A) (lo hi : Z) : M (list A) :=
  if decide (0 ≤ lo ∧ lo ≤ hi ∧ hi ≤ len l)%Z
  then ret (take (Z.to_nat (hi - lo)) (drop (Z.to_nat lo) l))
  else panic "slice bounds out of range".

(** [r.client.Write(bps)] *)
Definition Write (r : reporter) (bps : BatchPoints) : M (option error) :=
  λ w, match client r with
       | None => Panic "nil pointer dereference" w
       | Some c =>
           let '(rem, err) := client_Write c bps (remote w) in
           Done err (add_event (EvWrite c bps err) (set_remote rem w))
       end.

(** The loop [for i := 0; i < len(pts); i += maxBatchSize], entered at
    [i]; [fuel] bounds the number of iterations. *)
Fixpoint write_loop (fuel : nat) (r : reporter) (pts : list Point)
    (maxBatchSize i : Z) : M (option error) :=
  match fuel with
  | O => λ _, OutOfFuel
  | S fuel' =>
      if (i <? len pts)%Z then
        let batchEnd := wrap_int (i + maxBatchSize) in
        let batchEnd := if (len pts <? batchEnd)%Z then len pts else batchEnd in
        do ps <- slice pts i batchEnd;
        do err <- Write r (mkBatchPoints ps (database r));
        match err with
        | Some e => ret (Some e)
        | None => write_loop fuel' r pts maxBatchSize (wrap_int (i + maxBatchSize))
        end
      else ret None
  end.

(** The second half of [send]. *)
Definition write_batches (r : reporter) (pts : list Point) : M (option error) :=
  let maxBatchSize :=
    if (maxBatchSize r <=? 0)%Z then len pts else maxBatchSize r in
  write_loop (S (length pts)) r pts maxBatchSize 0.

Definition send (r : reporter) (wall : time.Time) (reg : Registry)
  : M (option error) :=
  do pts <- collect r wall reg;
  write_batches r pts.

(** *** The run loop *)

(** What wakes the [select] of [run]: the interval ticker, with the clock
    reading and the registry contents [send] will find, or the ping
    ticker. *)
Inductive tick : Type :=
  | IntervalTick (wall : time.Time) (reg : Registry)
  | PingTick.

Definition Ping (r : reporter) : M (option error) :=
  λ w, match client r with
       | None => Panic "nil pointer dereference" w
       | Some c =>
           let '(rem, err) := client_Ping c (remote w) in
           Done err (add_event (EvPing c err) (set_remote rem w))
       end.

(** One iteration of the [for { select { ... } }] of [run]. *)
Definition run_select (r : reporter) (t : tick) : M reporter :=
  match t with
  | IntervalTick wall reg =>
      if (interval r <=? 0)%Z then
        (* [time.Tick(d)] is the nil channel for [d <= 0]: this case of
           the [select] is never ready *)
        ret r
      else
        do err <- send r wall reg;
        match err with
        | Some e =>
            log_Printf ("unable to send metrics to InfluxDB. err=" +:+ e) ;;;
            ret r
        | None => ret r
        end
  | PingTick =>
      do err <- Ping r;
      match err with
      | Some e =>
          log_Printf ("got error while sending a ping to InfluxDB, trying to recreate client. err=" +:+ e) ;;;
          do made <- makeClient r;
          match made.2 with
          | Some e' =>
              log_Printf ("unable to make InfluxDB client. err=" +:+ e') ;;;
              ret made.1
          | None => ret made.1
          end
      | None => ret r
      end
  end.

(** [run] never returns; this is the loop over the first ticks. *)
Fixpoint run (r : reporter) (ticks : list tick) : M reporter :=
  match ticks with
  | [] => ret r
  | t :: ticks' => do r' <- run_select r t; run r' ticks'
  end.

(** *** Construction *)

(** How a call of [InfluxDBWithTags] goes on: it returns to its caller, or
    it reaches [rep.run()], which does not return. *)
Inductive started : Type :=
  | Returned
  | Running (rep : reporter).

Definition InfluxDBWithTags (d : time.Duration)
    (url database measurement username password : string) (tags : mapref)
    (align unsafeSsl : bool) (maxBatchSize : Z) : M started :=
  match url_Parse url with
  | inr err =>
      log_Printf ("unable to parse InfluxDB url " +:+ url +:+ ". err=" +:+ err) ;;;
      ret Returned
  | inl u =>
      let rep := mkReporter d align u database unsafeSsl maxBatchSize
                   measurement username password tags None in
      do made <- makeClient rep;
      match made.2 with
      | Some e =>
          log_Printf ("unable to make InfluxDB client. err=" +:+ e) ;;;
          ret Returned
      | None => ret (Running made.1)
      end
  end.

Definition InfluxDB (d : time.Duration)
    (url database measurement username password : string)
    (align unsafeSsl : bool) (maxBatchSize : Z) : M started :=
  do tags <- map_make;
  InfluxDBWithTags d url database measurement username password tags
    align unsafeSsl maxBatchSize.

End Reporter.

Arguments Done {E A} a w.
Arguments Panic {E A} msg w.
Arguments OutOfFuel {E A}.

(** ** A concrete environment, to run the reporter on examples *)

Module Sample.

(** Map iteration that alternates between the entries as stored and
    their reverse. *)
Definition order (n : nat) (A : Type) (l : list A) : list A :=
  if Nat.even n then l else reverse l.

Lemma order_perm n A (l : list A) : order n A l ≡ₚ l.
Proof. unfold order. destruct (Nat.even n); [done | apply reverse_Permutation]. Qed.

(** An environment whose server has accepted [n] writes so far and
    rejects the write numbered [failing] (from 0), if any. URLs are kept
    as strings; one without [://] does not parse. Client handles are
    numbers; no client can be made for the user [nobody]. *)
#[local] Instance env (failing : option nat) : Env := {|
  URL := string;
  Client := nat;
  Remote := nat;
  url_Parse s :=
    if decide (s = "localhost:8086") then inr "first path segment in URL cannot contain colon"
    else inl s;
  client_NewClient u user pass unsafe :=
    if decide (user = "nobody") then (None, Some "no such user") else (Some 7, None);
  client_Write c bps n :=
    (S n, if decide (failing = Some n) then Some "write failed" else None);
  client_Ping c n := (n, None);
  range_order := order;
  range_order_perm := order_perm;
|}.

Definition base_tags : gmap string string := {[ "host" := "a" ]}.

(** A world whose only map object is the base tag map, at address 0. *)
Definition world (failing : option nat) : @World (env failing) :=
  @mkWorld (env failing) [base_tags] 0 0 [].

Definition rep (failing : option nat) (align : bool) (maxBatchSize : Z)
  : @reporter (env failing) :=
  @mkReporter (env failing) 10%Z align "http://localhost:8086" "db" false
    maxBatchSize "m" "" "" (Some 0) (Some 7).

Definition meter : MeterSnapshot :=
  {| m_Count := 3%Z; m_Rate1 := 1.5; m_Rate5 := 2.5; m_RateMean := 0.5 |}.

Definition histogram : HistogramSnapshot :=
  {| h_Count := 4%Z; h_Max := 9%Z; h_Mean := 5; h_Min := 1%Z; h_StdDev := 2;
     h_Variance := 4;
     h_Percentiles := λ qs, [8; 6; 7; 5]%float |}.

Definition timer : TimerSnapshot :=
  {| t_Count := 4%Z; t_Max := 9%Z; t_Mean := 5; t_Min := 1%Z; t_StdDev := 2;
     t_Variance := 4;
     t_Percentiles := λ qs, [8; 6; 7; 5]%float;
     t_Rate1 := 1.5; t_Rate5 := 2.5; t_RateMean := 0.5 |}.

(** A world whose base tag map has a [bucket] entry of its own. *)
Definition bucket_world : @World (env None) :=
  @mkWorld (env None) [{[ "bucket" := "blue" ]}] 0 0 [].

(** A reporter without alignment or batch limit, and its world. *)
Definition r0 : @reporter (env None) := rep None false 0.
Definition w0 : @World (env None) := world None.

(** A world whose only map object has a [bucket] entry and a [host]
    entry. *)
Definition tagged : gmap string string := {[ "bucket" := "old"; "host" := "a" ]}.
Definition tagged_world : @World (env None) := @mkWorld (env None) [tagged] 0 0 [].

(** A reporter with batches of two points, on a server that rejects the
    write numbered [failing]. *)
Definition r2 (failing : option nat) : @reporter (env failing) :=
  rep failing false 2.

(** The one client handle of these environments. *)
Definition handle (failing : option nat) : @Client (env failing) := 7.

Definition second_fails : option nat := Some 1.
Definition first_fails : option nat := Some 0.

Definition registry : Registry :=
  [("heap.used", Gauge 1024%Z); ("requests", Counter 12%Z); ("rate", Meter meter)].

(** The six points of [registry] at the instant 1234, when the loop over
    the fields of the meter goes count, m5, mean, m1. *)
Definition points : list Point :=
  [mkPoint "m" (Some 0) {[ "heap.used.gauge" := Int64 1024 ]} 1234%Z;
   mkPoint "m" (Some 0) {[ "requests.count" := Int64 12 ]} 1234%Z;
   mkPoint "m" (Some 1) {[ "rate.meter" := Float64 3 ]} 1234%Z;
   mkPoint "m" (Some 2) {[ "rate.meter" := Float64 2.5 ]} 1234%Z;
   mkPoint "m" (Some 3) {[ "rate.meter" := Float64 0.5 ]} 1234%Z;
   mkPoint "m" (Some 4) {[ "rate.meter" := Float64 1.5 ]} 1234%Z].

(** A registry of three single-point metrics, and its points. *)
Definition plain_registry : Registry :=
  [("heap.used", Gauge 1024%Z); ("requests", Counter 12%Z); ("up", GaugeFloat64 1)].

Definition plain_points : list Point :=
  [mkPoint "m" (Some 0) {[ "heap.used.gauge" := Int64 1024 ]} 1234%Z;
   mkPoint "m" (Some 0) {[ "requests.count" := Int64 12 ]} 1234%Z;
   mkPoint "m" (Some 0) {[ "up.gauge" := Float64 1 ]} 1234%Z].

End Sample.


(** ** Notions the properties are stated with *)

(** Assigning the entries of [kvs] to [t], one after the other. *)
Definition assign_all (kvs : list (string * string)) (t : gmap string string)
  : gmap string string :=
  foldl (λ m kv, <[kv.1 := kv.2]> m) t kvs.

(** The tag set of a point, read through the store. *)
Definition tag_set (h : list (gmap string string)) (p : Point)
  : option (gmap string string) :=
  deref h (Tags p).

(** The value of a point's [bucket] tag, if it has one. *)
Definition bucket_of (h : list (gmap string string)) (p : Point) : option string :=
  tag_set h p ≫= (.!! "bucket").

(** The kinds that [send] expands into one point per entry of [fields]. *)
Definition bucketed (i : Metric) : bool :=
  match i with
  | Histogram _ | Meter _ | Timer _ => true
  | _ => false
  end.

(** The points a loop over [kvs] appends when the store has [base] map
    objects, and the map objects it allocates for their tags. *)
Definition bucket_points (measurement key : string) (now : time.Time)
    (base : nat) (kvs : list (string * float)) : list Point :=
  imap (λ i kv, mkPoint measurement (Some (base + i)) {[ key := Float64 kv.2 ]} now) kvs.

Definition bucket_maps (t : gmap string string) (kvs : list (string * float))
  : list (gmap string string) :=
  (λ kv, <["bucket" := kv.1]> t) <$> kvs.

(** [w'] has the map objects of [w], unchanged, and maybe more; nothing
    else differs but the count of [range] loops. *)
Definition extends `{E : Env} (w w' : World) : Prop :=
  (∃ ext, heap w' = heap w ++ ext) ∧ remote w' = remote w ∧ trace w' = trace w.

(** What [send] expands a metric of a bucketed kind into: the field key
    of its points and the entries of its [fields] literal. [None] for the
    other kinds, and when the snapshot returns fewer than four percentiles. *)
Definition expansion (name : string) (i : Metric)
  : option (string * list (string * float)) :=
  match i with
  | Histogram ms =>
      match h_Percentiles ms quantiles with
      | a :: b :: c :: d :: _ =>
          Some (name +:+ ".histogram", histogram_fields ms a b c d)
      | _ => None
      end
  | Meter ms => Some (name +:+ ".meter", meter_fields ms)
  | Timer ms =>
      match t_Percentiles ms quantiles with
      | a :: b :: c :: d :: _ =>
          Some (name +:+ ".timer", timer_fields ms a b c d)
      | _ => None
      end
  | _ => None
  end.

(** The percentiles a Histogram or Timer snapshot computes for [send]. *)
Definition percentiles (i : Metric) : option (list float) :=
  match i with
  | Histogram ms => Some (h_Percentiles ms quantiles)
  | Timer ms => Some (t_Percentiles ms quantiles)
  | _ => None
  end.

(** The field key of the points of a metric, by its kind. *)
Definition field_key (name : string) (i : Metric) : string :=
  match i with
  | Counter _ => name +:+ ".count"
  | Gauge _ | GaugeFloat64 _ => name +:+ ".gauge"
  | Histogram _ => name +:+ ".histogram"
  | Meter _ => name +:+ ".meter"
  | Timer _ => name +:+ ".timer"
  | Other => name
  end.

(** The field sets of the spec's table, section 4.4. *)
Definition field_set (i : Metric) : list string :=
  match i with
  | Histogram _ =>
      ["count"; "max"; "mean"; "min"; "stddev"; "variance";
       "p50"; "p75"; "p95"; "p99"]
  | Meter _ => ["count"; "m1"; "m5"; "mean"]
  | Timer _ =>
      ["count"; "max"; "mean"; "min"; "stddev"; "variance";
       "p50"; "p75"; "p95"; "p99"; "m1"; "m5"; "meanrate"]
  | _ => []
  end.

(** Among the points [new], read in the store [h], exactly one is tagged
    [bucket = k], and its only field is [key = v]. *)
Definition labelled (h : list (gmap string string)) (new : list Point)
    (key k : string) (v : float) : Prop :=
  ∃ j p, new !! j = Some p ∧ bucket_of h p = Some k ∧
         Fields p = {[ key := Float64 v ]} ∧
         ∀ j' p', new !! j' = Some p' → bucket_of h p' = Some k → j' = j.

(** *** Batches, as the spec words them *)

(** The partition of [l] into contiguous chunks of [n] elements, the last
    one maybe shorter. *)
Fixpoint chunks_upto {A} (fuel n : nat) (l : list A) : list (list A) :=
  match fuel, l with
  | S fuel', _ :: _ => take n l :: chunks_upto fuel' n (drop n l)
  | _, _ => []
  end.

Definition chunks {A} (n : nat) (l : list A) : list (list A) :=
  chunks_upto (length l) n l.

(** The number of batches: the ceiling of [P / B]. *)
Definition ceil_div (P B : nat) : nat := (P + B - 1) `div` B.

Section Batches.
Context `{E : Env}.

(** The batches of the spec for the points of a tick: chunks of
    [maxBatchSize], or of everything when it is not positive. *)
Definition batches (r : reporter) (pts : list Point) : list (list Point) :=
  chunks (Z.to_nat (if (maxBatchSize r <=? 0)%Z then len pts else maxBatchSize r)) pts.

(** Writing batches one after the other up to the first error. *)
Fixpoint write_all (r : reporter) (bs : list (list Point)) : M (option error) :=
  match bs with
  | [] => ret None
  | b :: bs' =>
      bind (Write r (mkBatchPoints b (database r)))
        (λ err, match err with
                | Some e => ret (Some e)
                | None => write_all r bs'
                end)
  end.

(** The server once the batches [bs] have all been sent to it in turn. *)
Definition remote_after (c : Client) (db : string) (bs : list (list Point))
    (rem : Remote) : Remote :=
  foldl (λ s b, (client_Write c (mkBatchPoints b db) s).1) rem bs.

(** The answer to the write of batch number [j] (from 0) of [bs], when the
    batches before it have been sent. *)
Definition write_result (c : Client) (db : string) (bs : list (list Point))
    (rem : Remote) (j : nat) : option error :=
  match bs !! j with
  | Some b => (client_Write c (mkBatchPoints b db) (remote_after c db (take j bs) rem)).2
  | None => None
  end.

(** The batches of the write calls of a trace, in order. *)
Definition written (evs : list event) : list (list Point) :=
  omap (λ ev, match ev with
              | EvWrite _ bps _ => Some (Points bps)
              | _ => None
              end) evs.

(** The event of a write of [b] answered by [err]. *)
Definition write_event (c : Client) (db : string) (err : option error)
    (b : list Point) : event :=
  EvWrite c (mkBatchPoints b db) err.

End Batches.

(** A snapshot that returns at least the four percentiles [send] reads. *)
Definition enough_percentiles (i : Metric) : bool :=
  match percentiles i with
  | Some (_ :: _ :: _ :: _ :: _) | None => true
  | Some _ => false
  end.

Definition registry_ok (reg : Registry) : bool :=
  forallb (λ e, enough_percentiles e.2) reg.

(** [new] are the points that the tick on the registry
    [reg1 ++ (name, i) :: reg2] appends for the entry [(name, i)], and [pts]
    are all the points of the tick. *)
Definition emitted `{E : Env} (r : reporter) (wall : time.Time)
    (reg1 : Registry) (name : string) (i : Metric) (w : World)
    (pts new : list Point) : Prop :=
  ∃ pts1 pts2 w1 w2,
    collect r wall reg1 w = Done pts1 w1 ∧
    visit r (timestamp r wall) pts1 name i w1 = Done (pts1 ++ new) w2 ∧
    pts = pts1 ++ new ++ pts2.

(** *** Notions for the further properties *)

(** The one field of the point of a Counter, Gauge or GaugeFloat64. *)
Definition single_field (name : string) (i : Metric) : option (string * iface) :=
  match i with
  | Counter count => Some (name +:+ ".count", Int64 count)
  | Gauge value => Some (name +:+ ".gauge", Int64 value)
  | GaugeFloat64 value => Some (name +:+ ".gauge", Float64 value)
  | _ => None
  end.

(** How many points the table of the spec gives a metric of each kind. *)
Definition points_per_kind (i : Metric) : nat :=
  match i with
  | Counter _ | Gauge _ | GaugeFloat64 _ => 1
  | Histogram _ => 10
  | Meter _ => 4
  | Timer _ => 13
  | Other => 0
  end.

(** The map objects an entry makes the tick allocate. *)
Definition maps_per_kind (i : Metric) : nat :=
  if bucketed i then points_per_kind i else 0.

(** The tag maps of the points [pts] that are not the base tag map. *)
Definition own_tags `{E : Env} (r : reporter) (pts : list Point) : list mapref :=
  filter (λ m, m ≠ tags r) (Tags <$> pts).

(** An event that is a write through the client [c] to the database [db]
    of a batch that is not empty. *)
Definition is_write `{E : Env} (c : Client) (db : string) (ev : event) : Prop :=
  ∃ b err, ev = EvWrite c (mkBatchPoints b db) err ∧ b ≠ [].

(** The result of a computation with the points [pre] put in front. *)
Definition prepend `{E : Env} (pre : list Point) (res : result (list Point))
  : result (list Point) :=
  match res with
  | Done pts w => Done (pre ++ pts) w
  | Panic msg w => Panic msg w
  | OutOfFuel => OutOfFuel
  end.

(** More values to run the reporter on. *)
Module Cases.

(** A histogram whose snapshot returns two percentiles only. *)
Definition short_histogram : HistogramSnapshot :=
  {| h_Count := 4%Z; h_Max := 9%Z; h_Mean := 5; h_Min := 1%Z; h_StdDev := 2;
     h_Variance := 4;
     h_Percentiles := λ qs, [8; 6]%float |}.

(** A reporter with batches of eight points. *)
Definition r8 : @reporter (Sample.env None) := Sample.rep None false 8.

(** An environment in which pings fail and no client can be made again. *)
#[local] Instance offline : Env := {|
  URL := string;
  Client := nat;
  Remote := nat;
  url_Parse s := inl s;
  client_NewClient u user pass unsafe :=
    if decide (user = "") then (None, Some "no such user") else (Some 7, None);
  client_Write c bps n := (S n, None);
  client_Ping c n := (n, Some "connection refused");
  range_order := Sample.order;
  range_order_perm := Sample.order_perm;
|}.

Definition offline_world : @World offline := @mkWorld offline [∅] 0 0 [].

Definition offline_handle : @Client offline := 7.
Definition offline_remote : @Remote offline := 0.

Definition offline_rep : @reporter offline :=
  @mkReporter offline 10%Z false "http://localhost:8086" "db" false 0%Z "m" "" ""
    (Some 0) (Some 7).

End Cases.

(** * Properties *)

(** ** Map objects and [bucketTags] *)

Section Maps.
Context `{E : Env}.

Lemma assign_all_union kvs t :
  assign_all kvs t = list_to_map (reverse kvs) ∪ t.
Proof.
  revert t. induction kvs as [|[k v] kvs IH]; intros t; simpl.
  - by rewrite (left_id_L ∅ (∪)).
  - unfold assign_all in *. simpl. rewrite IH, reverse_cons, list_to_map_app.
    simpl. rewrite <- (assoc_L (∪)). f_equal.
    rewrite insert_empty. apply insert_union_singleton_l.
Qed.

(** Copying a map entry by entry rebuilds it, in whatever order the
    entries come. *)
Lemma assign_all_range (t : gmap string string) kvs :
  kvs ≡ₚ map_to_list t → assign_all kvs ∅ = t.
Proof.
  intros Hp. rewrite assign_all_union, (right_id_L ∅ (∪)).
  trans (list_to_map (M := gmap string string) (map_to_list t));
    [|apply list_to_map_to_list].
  apply list_to_map_proper.
  - rewrite reverse_Permutation, Hp. apply NoDup_fst_map_to_list.
  - by rewrite reverse_Permutation.
Qed.

Lemma for_each_assign (kvs : list (string * string)) h t w :
  heap w = h ++ [t] →
  for_each kvs (λ '(tk, tv), map_assign (Some (length h)) tk tv) w =
    Done tt (set_heap (h ++ [assign_all kvs t]) w).
Proof.
  revert t w. induction kvs as [|[k v] kvs IH]; intros t w Hw; simpl.
  - unfold ret, set_heap. rewrite <- Hw. by destruct w.
  - unfold bind at 1. unfold map_assign at 1.
    rewrite Hw, list_lookup_middle by done.
    rewrite (IH (<[k:=v]> t)).
    + unfold set_heap. simpl. done.
    + simpl. rewrite insert_app_r_alt, Nat.sub_diag by lia. done.
Qed.

(** What [bucketTags] returns and how it leaves the world: one more map
    object, holding the entries of [tags] with [bucket] on top. *)
Lemma bucketTags_Done bucket tags t w :
  deref (heap w) tags = Some t →
  bucketTags bucket tags w =
    Done (Some (length (heap w)))
      (mkWorld (heap w ++ [<["bucket" := bucket]> t]) (remote w)
         (S (ranges w)) (trace w)).
Proof.
  intros Ht. unfold bucketTags.
  unfold bind at 1. unfold map_make at 1.
  unfold bind at 1. unfold map_read at 1.
  assert (deref (heap (set_heap (heap w ++ [∅]) w)) tags = Some t) as ->.
  { destruct tags as [l|]; simpl in *; [|done].
    by apply lookup_app_l_Some. }
  unfold bind at 1. unfold map_range at 1.
  unfold bind at 1.
  erewrite for_each_assign by (simpl; reflexivity).
  unfold bind at 1. unfold map_assign at 1. simpl.
  rewrite list_lookup_middle by done.
  unfold ret, set_heap. simpl.
  rewrite insert_app_r_alt, Nat.sub_diag by lia. simpl.
  rewrite (assign_all_range t) by apply range_order_perm. done.
Qed.

(** C10: [bucketTags k tags] returns a map holding every entry of [tags]
    except that [bucket] is bound to [k], whatever [tags] bound it to; the
    map returned is newly allocated, is not [tags], and [tags] and every
    other map object are left as they were. *)
Theorem bucketTags_fresh_copy (k : string) (tags : mapref)
    (t : gmap string string) (w : World) :
  deref (heap w) tags = Some t →
  ∃ l w' m,
    bucketTags k tags w = Done (Some l) w' ∧
    deref (heap w') (Some l) = Some m ∧
    m !! "bucket" = Some k ∧
    (∀ key, key ≠ "bucket" → m !! key = t !! key) ∧
    heap w !! l = None ∧
    Some l ≠ tags ∧
    deref (heap w') tags = Some t ∧
    (∀ l', l' < length (heap w) → heap w' !! l' = heap w !! l').
Proof.
  intros Ht.
  exists (length (heap w)),
    (mkWorld (heap w ++ [<["bucket" := k]> t]) (remote w) (S (ranges w)) (trace w)),
    (<["bucket" := k]> t).
  split; [by apply bucketTags_Done|]. simpl.
  split_and!.
  - by apply list_lookup_middle.
  - apply lookup_insert_eq.
  - intros key Hkey. by apply lookup_insert_ne.
  - by apply lookup_ge_None_2.
  - intros <-. simpl in Ht. apply lookup_lt_Some in Ht. lia.
  - destruct tags as [l|]; simpl in *; [|done]. by apply lookup_app_l_Some.
  - intros l' Hl'. by apply lookup_app_l.
Qed.

End Maps.

(** ** The translation of registry entries *)

Section Translate.
Context `{E : Env}.

Lemma deref_app h ext m t : deref h m = Some t → deref (h ++ ext) m = Some t.
Proof. destruct m; simpl; [apply lookup_app_l_Some | done]. Qed.

Lemma bucket_points_cons m key now base kv kvs :
  bucket_points m key now base (kv :: kvs) =
    mkPoint m (Some base) {[ key := Float64 kv.2 ]} now
      :: bucket_points m key now (S base) kvs.
Proof.
  unfold bucket_points. simpl. rewrite Nat.add_0_r. f_equal.
  apply imap_ext. intros i x _. simpl. do 2 f_equal. lia.
Qed.

Lemma range_fields_Done r now key kvs pts w t :
  deref (heap w) (tags r) = Some t →
  range_fields r now key kvs pts w =
    Done (pts ++ bucket_points (measurement r) key now (length (heap w)) kvs)
      (mkWorld (heap w ++ bucket_maps t kvs) (remote w)
         (ranges w + length kvs) (trace w)).
Proof.
  revert pts w. induction kvs as [|[k v] kvs IH]; intros pts w Ht.
  - simpl. unfold ret. rewrite !app_nil_r, Nat.add_0_r. by destruct w.
  - rewrite bucket_points_cons. simpl.
    unfold bind. rewrite (bucketTags_Done k (tags r) t w Ht).
    rewrite IH by (simpl; by apply deref_app). simpl.
    rewrite <- !(assoc_L (++)), length_app. simpl.
    rewrite Nat.add_1_r. do 2 f_equal. lia.
Qed.

Lemma NoDup_histogram_fields ms a b c d : NoDup (histogram_fields ms a b c d).*1.
Proof. apply (bool_decide_unpack _). by vm_compute. Qed.

Lemma NoDup_meter_fields ms : NoDup (meter_fields ms).*1.
Proof. apply (bool_decide_unpack _). by vm_compute. Qed.

Lemma NoDup_timer_fields ms a b c d : NoDup (timer_fields ms a b c d).*1.
Proof. apply (bool_decide_unpack _). by vm_compute. Qed.

Lemma expansion_NoDup name i key fl :
  expansion name i = Some (key, fl) → NoDup fl.*1.
Proof.
  destruct i as [| | |ms|ms|ms|]; simpl; try done.
  - destruct (h_Percentiles ms quantiles) as [|a [|b [|c [|d ?]]]]; try done.
    intros [= _ <-]. apply NoDup_histogram_fields.
  - intros [= _ <-]. apply NoDup_meter_fields.
  - destruct (t_Percentiles ms quantiles) as [|a [|b [|c [|d ?]]]]; try done.
    intros [= _ <-]. apply NoDup_timer_fields.
Qed.

(** The order in which the loop started in [w] visits the entries [fl]. *)
Lemma range_order_fields (n : nat) (fl : list (string * float)) :
  NoDup fl.*1 →
  range_order n _ (map_to_list (list_to_map (M := gmap string float) fl)) ≡ₚ fl.
Proof. intros Hnd. rewrite range_order_perm. by apply map_to_list_to_map. Qed.

(** A metric of a bucketed kind: one point and one new map object per
    entry of [fields], in the order [kvs] of the [range] loop. *)
Lemma expand_Done r now key pts w t (fl : list (string * float)) :
  deref (heap w) (tags r) = Some t →
  bind (map_range (list_to_map (M := gmap string float) fl))
       (λ kvs, range_fields r now key kvs pts) w =
  let kvs := range_order (ranges w) _
               (map_to_list (list_to_map (M := gmap string float) fl)) in
  Done (pts ++ bucket_points (measurement r) key now (length (heap w)) kvs)
    (mkWorld (heap w ++ bucket_maps t kvs) (remote w)
       (S (ranges w) + length kvs) (trace w)).
Proof.
  intros Ht. unfold bind, map_range.
  by rewrite (range_fields_Done _ _ _ _ _ _ t).
Qed.

Lemma visit_bucketed r now pts name i w t key fl :
  expansion name i = Some (key, fl) →
  deref (heap w) (tags r) = Some t →
  ∃ kvs, kvs ≡ₚ fl ∧
    visit r now pts name i w =
      Done (pts ++ bucket_points (measurement r) key now (length (heap w)) kvs)
        (mkWorld (heap w ++ bucket_maps t kvs) (remote w)
           (S (ranges w) + length kvs) (trace w)).
Proof.
  intros Hexp Ht. pose proof (expansion_NoDup _ _ _ _ Hexp) as Hnd.
  exists (range_order (ranges w) _ (map_to_list (list_to_map (M := gmap string float) fl))).
  split; [by apply range_order_fields|].
  etrans; [|exact (expand_Done r now key pts w t fl Ht)].
  destruct i as [| | |ms|ms|ms|]; try done; unfold visit, expansion in *.
  - destruct (h_Percentiles ms quantiles) as [|a [|b [|c [|d ?]]]]; try done.
    by injection Hexp as <- <-.
  - by injection Hexp as <- <-.
  - destruct (t_Percentiles ms quantiles) as [|a [|b [|c [|d ?]]]]; try done.
    by injection Hexp as <- <-.
Qed.

(** With fewer than four percentiles, [ps[i]] panics before any point is
    appended. *)
Lemma visit_short_percentiles r now pts name i w :
  bucketed i = true → expansion name i = None →
  visit r now pts name i w = Panic "index out of range" w.
Proof.
  destruct i as [| | |ms|ms|ms|]; simpl; try done.
  - by destruct (h_Percentiles ms quantiles) as [|a [|b [|c [|d ?]]]].
  - by destruct (t_Percentiles ms quantiles) as [|a [|b [|c [|d ?]]]].
Qed.

(** The points of a bucketed metric by bucket and field set: those of the
    entries of [fields], in some order. *)
Lemma visit_bucketed_view r now pts name i w t key fl :
  expansion name i = Some (key, fl) →
  deref (heap w) (tags r) = Some t →
  ∃ new w',
    visit r now pts name i w = Done (pts ++ new) w' ∧
    (λ p, (bucket_of (heap w') p, Fields p)) <$> new ≡ₚ
      (λ kv, (Some kv.1, {[ key := Float64 kv.2 ]})) <$> fl.
Proof.
  intros Hexp Ht.
  destruct (visit_bucketed r now pts name i w t key fl Hexp Ht) as (kvs & Hp & Hv).
  eexists _, _. split; [exact Hv|]. simpl.
  rewrite <- Hp.
  apply reflexive_eq, list_eq. intros j.
  unfold bucket_points, bucket_maps, bucket_of, tag_set.
  rewrite !list_lookup_fmap, list_lookup_imap.
  destruct (kvs !! j) as [[k v]|] eqn:Hj; simpl; [|done].
  rewrite lookup_app_r by lia.
  replace (length (heap w) + j - length (heap w)) with j by lia.
  rewrite list_lookup_fmap, Hj. simpl. by rewrite lookup_insert_eq.
Qed.

Lemma labelled_intro (h : list (gmap string string)) new key (fl : list (string * float)) k v :
  (λ p, (bucket_of h p, Fields p)) <$> new ≡ₚ
    (λ kv, (Some kv.1, {[ key := Float64 kv.2 ]})) <$> fl →
  NoDup fl.*1 → (k, v) ∈ fl →
  labelled h new key k v.
Proof.
  intros Hp Hnd Hin.
  assert (NoDup (bucket_of h <$> new)) as Hndb.
  { assert (bucket_of h <$> new = ((λ p, (bucket_of h p, Fields p)) <$> new).*1) as ->.
    { by rewrite <- list_fmap_compose. }
    rewrite Hp, <- list_fmap_compose.
    assert ((fst ∘ λ kv : string * float, (Some kv.1, ({[key := Float64 kv.2]} : gmap string iface)))
            <$> fl = Some <$> fl.*1) as ->.
    { by rewrite <- list_fmap_compose. }
    apply (NoDup_fmap_2 Some), Hnd. }
  assert ((Some k, ({[ key := Float64 v ]} : gmap string iface))
          ∈ (λ p, (bucket_of h p, Fields p)) <$> new) as Hin'.
  { rewrite Hp. apply list_elem_of_fmap. by exists (k, v). }
  apply list_elem_of_fmap in Hin' as (p & Heq & Hp').
  apply list_elem_of_lookup in Hp' as (j & Hj).
  injection Heq as Hb Hf.
  exists j, p. split_and!; [done..|].
  intros j' p' Hj' Hb'.
  eapply (NoDup_lookup (bucket_of h <$> new)); [done|..].
  - by rewrite list_lookup_fmap, Hj'; simpl; rewrite Hb'.
  - by rewrite list_lookup_fmap, Hj; simpl; rewrite <- Hb.
Qed.

Lemma percentiles_expansion name i a b c d :
  percentiles i = Some [a; b; c; d] →
  ∃ fl, expansion name i = Some (field_key name i, fl) ∧
        fl.*1 = field_set i ∧
        (("p50", a) ∈ fl ∧ ("p75", b) ∈ fl ∧ ("p95", c) ∈ fl ∧ ("p99", d) ∈ fl).
Proof.
  destruct i as [| | |ms|ms|ms|]; simpl; try done; intros [= ->]; eexists;
    (split; [reflexivity|]); (split; [reflexivity|]);
    unfold histogram_fields, timer_fields; set_solver.
Qed.

End Translate.

(** [bucketTags] on a base map that has a [bucket] entry of its own. *)
Lemma bucketTags_fresh_copy_witness :
  deref (heap Sample.tagged_world) (Some 0) = Some Sample.tagged ∧
  ∃ l w' m,
    bucketTags "p99" (Some 0) Sample.tagged_world = Done (Some l) w' ∧
    deref (heap w') (Some l) = Some m ∧
    m !! "bucket" = Some "p99" ∧
    (∀ key, key ≠ "bucket" → m !! key = Sample.tagged !! key) ∧
    heap Sample.tagged_world !! l = None ∧
    Some l ≠ Some 0 ∧
    deref (heap w') (Some 0) = Some Sample.tagged ∧
    (∀ l', l' < length (heap Sample.tagged_world) →
       heap w' !! l' = heap Sample.tagged_world !! l').
Proof.
  split; [reflexivity|].
  apply (bucketTags_fresh_copy (E := Sample.env None) "p99" (Some 0)
           Sample.tagged Sample.tagged_world).
  reflexivity.
Defined.

(** ** The points of a tick *)

Section Collect.
Context `{E : Env}.

Lemma extends_refl w : extends w w.
Proof. split_and!; [|done..]. exists []. by rewrite app_nil_r. Qed.

Lemma extends_trans w1 w2 w3 : extends w1 w2 → extends w2 w3 → extends w1 w3.
Proof.
  intros ([e1 H1] & ? & ?) ([e2 H2] & ? & ?). split_and!; [|congruence..].
  exists (e1 ++ e2). by rewrite H2, H1, (assoc_L (++)).
Qed.

Lemma extends_length w w' : extends w w' → length (heap w) ≤ length (heap w').
Proof. intros ([e ->] & _). rewrite length_app. lia. Qed.

Lemma extends_deref w w' m t :
  extends w w' → deref (heap w) m = Some t → deref (heap w') m = Some t.
Proof. intros ([e ->] & _). apply deref_app. Qed.

Lemma bucket_points_Forall m key now base kvs :
  Forall (λ p, Time p = now ∧
               ∃ l, Tags p = Some l ∧ base ≤ l < base + length kvs)
    (bucket_points m key now base kvs).
Proof.
  apply Forall_lookup. intros j p. unfold bucket_points.
  rewrite list_lookup_imap.
  destruct (kvs !! j) eqn:Hj; simpl; [|done]. intros [= <-]. simpl.
  split; [done|]. eexists. split; [done|]. apply lookup_lt_Some in Hj. lia.
Qed.

(** One call of the function passed to [Each]: points are appended, map
    objects are added; the points of the bucketed kinds have their tags in
    map objects that were not there before, the others in [r.tags]. *)
Lemma visit_frame r now pts name i w pts' w' t :
  deref (heap w) (tags r) = Some t →
  visit r now pts name i w = Done pts' w' →
  ∃ new, pts' = pts ++ new ∧ extends w w' ∧
    Forall (λ p, Time p = now) new ∧
    if bucketed i
    then Forall (λ p, ∃ l, Tags p = Some l ∧
                        length (heap w) ≤ l < length (heap w')) new
    else Forall (λ p, Tags p = tags r) new.
Proof.
  intros Ht Hv. destruct (bucketed i) eqn:Hb.
  - destruct (expansion name i) as [[key fl]|] eqn:Hexp.
    + destruct (visit_bucketed r now pts name i w t key fl Hexp Ht)
        as (kvs & _ & Heq).
      rewrite Heq in Hv. injection Hv as <- <-. eexists. split; [done|].
      split_and!.
      * split_and!; [by eexists|done..].
      * eapply Forall_impl; [apply bucket_points_Forall|]. by intros p [? _].
      * eapply Forall_impl; [apply bucket_points_Forall|].
        intros p (_ & l & ? & ?). exists l. split; [done|]. simpl.
        unfold bucket_maps. rewrite length_app, length_fmap. lia.
    + by rewrite visit_short_percentiles in Hv.
  - destruct i; try done; simpl in Hv; unfold ret in Hv; injection Hv as <- <-.
    1-3: eexists; split; [done|]; split; [apply extends_refl|];
         split; by repeat constructor.
    exists []. rewrite app_nil_r. split; [done|].
    split; [apply extends_refl|].
    split; constructor.
Qed.

Lemma Each_app reg1 reg2 f pts w :
  Each (reg1 ++ reg2) f pts w = bind (Each reg1 f pts) (Each reg2 f) w.
Proof.
  revert pts w. induction reg1 as [|[name i] reg1 IH]; intros pts w; [done|].
  simpl. unfold bind in *. destruct (f pts name i w) as [pts1 w1| |]; [|done..].
  apply IH.
Qed.

Lemma Each_frame r now reg pts w pts' w' t :
  deref (heap w) (tags r) = Some t →
  Each reg (visit r now) pts w = Done pts' w' →
  ∃ new, pts' = pts ++ new ∧ extends w w' ∧ Forall (λ p, Time p = now) new.
Proof.
  revert pts w. induction reg as [|[name i] reg IH]; intros pts w Ht He.
  - injection He as <- <-. exists []. rewrite app_nil_r.
    split_and!; [done|apply extends_refl|done].
  - simpl in He. unfold bind in He.
    destruct (visit r now pts name i w) as [pts1 w1| |] eqn:Hv; [|done..].
    destruct (visit_frame _ _ _ _ _ _ _ _ _ Ht Hv) as (new1 & -> & Hx1 & Hn1 & _).
    destruct (IH _ _ (extends_deref _ _ _ _ Hx1 Ht) He) as (new2 & -> & Hx2 & Hn2).
    exists (new1 ++ new2). rewrite (assoc_L (++)). split_and!; [done| |].
    + by eapply extends_trans.
    + by apply Forall_app.
Qed.

(** The visit of one entry within the tick. *)
Lemma collect_entry r wall reg1 name i reg2 w t pts w' :
  deref (heap w) (tags r) = Some t →
  collect r wall (reg1 ++ (name, i) :: reg2) w = Done pts w' →
  ∃ pts1 new pts2 w1 w2,
    collect r wall reg1 w = Done pts1 w1 ∧
    visit r (timestamp r wall) pts1 name i w1 = Done (pts1 ++ new) w2 ∧
    pts = pts1 ++ new ++ pts2 ∧
    extends w w1 ∧ extends w1 w2 ∧ extends w2 w'.
Proof.
  intros Ht Hc. unfold collect in *. rewrite Each_app in Hc.
  unfold bind in Hc.
  destruct (Each reg1 _ [] w) as [pts1 w1| |] eqn:H1; [|done..].
  simpl in Hc. unfold bind in Hc.
  destruct (visit r (timestamp r wall) pts1 name i w1) as [pts2 w2| |] eqn:H2;
    [|done..].
  destruct (Each_frame _ _ _ _ _ _ _ _ Ht H1) as (new1 & _ & Hx1 & _).
  pose proof (extends_deref _ _ _ _ Hx1 Ht) as Ht1.
  destruct (visit_frame _ _ _ _ _ _ _ _ _ Ht1 H2) as (new & -> & Hx2 & _).
  pose proof (extends_deref _ _ _ _ Hx2 Ht1) as Ht2.
  destruct (Each_frame _ _ _ _ _ _ _ _ Ht2 Hc) as (new3 & -> & Hx3 & _).
  exists pts1, new, new3, w1, w2.
  split_and!; [done|done|by rewrite (assoc_L (++))|done..].
Qed.

(** A tick on a registry whose snapshots return their four percentiles
    builds its points: it does not panic. *)
Lemma collect_total r wall reg w t :
  deref (heap w) (tags r) = Some t →
  registry_ok reg = true →
  ∃ pts w', collect r wall reg w = Done pts w'.
Proof.
  unfold collect. generalize (@nil Point) as pts.
  revert w. induction reg as [|[name i] reg IH]; intros w pts Ht Hok.
  - by eexists _, _.
  - simpl in Hok. apply andb_prop in Hok as [Hi Hok]. simpl. unfold bind.
    assert (∃ pts1 w1, visit r (timestamp r wall) pts name i w = Done pts1 w1)
      as (pts1 & w1 & Hv).
    { destruct (bucketed i) eqn:Hb.
      - destruct (expansion name i) as [[key fl]|] eqn:Hexp.
        + destruct (visit_bucketed r (timestamp r wall) pts name i w t key fl Hexp Ht)
            as (kvs & _ & Hv).
          by eexists _, _.
        + exfalso. unfold enough_percentiles in Hi.
          destruct i as [| | |ms|ms|ms|]; simpl in *; try done.
          * by destruct (h_Percentiles ms quantiles) as [|? [|? [|? [|? ?]]]].
          * by destruct (t_Percentiles ms quantiles) as [|? [|? [|? [|? ?]]]].
      - destruct i; try done; by eexists _, _. }
    rewrite Hv.
    destruct (visit_frame _ _ _ _ _ _ _ _ _ Ht Hv) as (_ & _ & Hx & _).
    apply IH; [by eapply extends_deref|done].
Qed.

Lemma bucket_of_app h ext p k :
  bucket_of h p = Some k → bucket_of (h ++ ext) p = Some k.
Proof.
  unfold bucket_of, tag_set. destruct (deref h (Tags p)) as [m|] eqn:Hm; [|done].
  by rewrite (deref_app _ ext _ _ Hm).
Qed.

(** The view of the points of a bucketed metric holds in any later store. *)
Lemma view_app h ext new key (fl : list (string * float)) :
  (λ p, (bucket_of h p, Fields p)) <$> new ≡ₚ
    (λ kv, (Some kv.1, {[ key := Float64 kv.2 ]})) <$> fl →
  (λ p, (bucket_of (h ++ ext) p, Fields p)) <$> new ≡ₚ
    (λ kv, (Some kv.1, {[ key := Float64 kv.2 ]})) <$> fl.
Proof.
  intros Hview. rewrite <- Hview. apply reflexive_eq, list_fmap_ext.
  intros j p Hj. f_equal.
  assert ((bucket_of h p, Fields p) ∈ (λ p, (bucket_of h p, Fields p)) <$> new) as Hin.
  { apply list_elem_of_fmap. exists p. split; [done|]. by eapply list_elem_of_lookup_2. }
  rewrite Hview in Hin. apply list_elem_of_fmap in Hin as ([k v] & [= Hk _] & _).
  rewrite Hk. by apply bucket_of_app.
Qed.

(** The points of a bucketed entry of the tick, by bucket and field set,
    read in the store the tick leaves. *)
Lemma collect_bucketed_view r wall reg1 name i reg2 w t pts w' key fl :
  expansion name i = Some (key, fl) →
  deref (heap w) (tags r) = Some t →
  collect r wall (reg1 ++ (name, i) :: reg2) w = Done pts w' →
  ∃ new,
    emitted r wall reg1 name i w pts new ∧
    (λ p, (bucket_of (heap w') p, Fields p)) <$> new ≡ₚ
      (λ kv, (Some kv.1, {[ key := Float64 kv.2 ]})) <$> fl.
Proof.
  intros Hexp Ht Hc.
  destruct (collect_entry _ _ _ _ _ _ _ _ _ _ Ht Hc)
    as (pts1 & new & pts2 & w1 & w2 & H1 & H2 & -> & Hx1 & Hx2 & ([ext Hext] & _)).
  exists new. split; [by exists pts1, pts2, w1, w2|].
  destruct (visit_bucketed_view r (timestamp r wall) pts1 name i w1 t key fl Hexp
              (extends_deref _ _ _ _ Hx1 Ht)) as (new' & w2' & Hv & Hview).
  rewrite H2 in Hv. injection Hv as Hnew <-. apply app_inv_head in Hnew as <-.
  rewrite Hext. by apply view_app.
Qed.

(** C1, as the code has it: the points built for a Histogram, Meter or
    Timer entry have tag sets that are fresh copies: assigning to an entry
    of such a point's tag set, after the tick's points are built, leaves
    the base tag map as it was. The points built for a Counter, Gauge or
    GaugeFloat64 entry hold the base tag map itself. *)
Theorem bucketed_tags_fresh r wall reg1 name i reg2 w t :
  deref (heap w) (tags r) = Some t →
  registry_ok (reg1 ++ (name, i) :: reg2) = true →
  ∃ pts w' new,
    collect r wall (reg1 ++ (name, i) :: reg2) w = Done pts w' ∧
    emitted r wall reg1 name i w pts new ∧
    deref (heap w') (tags r) = Some t ∧
    if bucketed i
    then ∀ p k v, p ∈ new →
           ∃ w'', map_assign (Tags p) k v w' = Done tt w'' ∧
                  deref (heap w'') (tags r) = Some t
    else ∀ p, p ∈ new → Tags p = tags r.
Proof.
  intros Ht Hok.
  destruct (collect_total r wall _ w t Ht Hok) as (pts & w' & Hc).
  exists pts, w'.
  destruct (collect_entry _ _ _ _ _ _ _ _ _ _ Ht Hc)
    as (pts1 & new & pts2 & w1 & w2 & H1 & H2 & -> & Hx1 & Hx2 & Hx3).
  pose proof (extends_deref _ _ _ _ Hx1 Ht) as Ht1.
  destruct (visit_frame _ _ _ _ _ _ _ _ _ Ht1 H2) as (new' & Hnew & _ & _ & Hfr).
  apply app_inv_head in Hnew as <-.
  exists new. split; [done|]. split; [by exists pts1, pts2, w1, w2|].
  split; [eauto using extends_deref|].
  destruct (bucketed i).
  - intros p k v Hp. rewrite Forall_forall in Hfr.
    destruct (Hfr p Hp) as (l & Hl & Hlo & Hhi).
    pose proof (extends_length _ _ Hx1). pose proof (extends_length _ _ Hx3).
    destruct (lookup_lt_is_Some_2 (heap w') l) as [m Hm]; [lia|].
    eexists. unfold map_assign. rewrite Hl, Hm. split; [done|]. simpl.
    assert (deref (heap w') (tags r) = Some t) as Ht' by eauto using extends_deref.
    destruct (tags r) as [l0|]; simpl in *; [|done].
    apply lookup_lt_Some in Ht as Hl0.
    rewrite list_lookup_insert_ne by lia. done.
  - by apply Forall_forall.
Qed.

(** C2: when the percentile computation of a Histogram or Timer snapshot
    returns [a; b; c; d], the points the tick emits for the metric include
    exactly one tagged bucket=p50, whose value is [a], one tagged
    bucket=p75 with value [b], one tagged bucket=p95 with value [c] and one
    tagged bucket=p99 with value [d]: the labels go by position, whatever
    the order of the four numbers. *)
Theorem percentiles_positional r wall reg1 name i reg2 w t a b c d :
  percentiles i = Some [a; b; c; d] →
  deref (heap w) (tags r) = Some t →
  registry_ok (reg1 ++ (name, i) :: reg2) = true →
  ∃ pts w' new,
    collect r wall (reg1 ++ (name, i) :: reg2) w = Done pts w' ∧
    emitted r wall reg1 name i w pts new ∧
    labelled (heap w') new (field_key name i) "p50" a ∧
    labelled (heap w') new (field_key name i) "p75" b ∧
    labelled (heap w') new (field_key name i) "p95" c ∧
    labelled (heap w') new (field_key name i) "p99" d.
Proof.
  intros Hps Ht Hok.
  destruct (collect_total r wall _ w t Ht Hok) as (pts & w' & Hc).
  destruct (percentiles_expansion name i a b c d Hps)
    as (fl & Hexp & _ & Ha & Hb & Hc' & Hd).
  destruct (collect_bucketed_view _ _ _ _ _ _ _ _ _ _ _ _ Hexp Ht Hc)
    as (new & Hem & Hview).
  pose proof (expansion_NoDup _ _ _ _ Hexp) as Hnd.
  exists pts, w', new. split; [done|]. split; [done|].
  split_and!; by eapply labelled_intro.
Qed.

(** C8: for a Histogram or Timer metric (whose snapshot returns the four
    percentiles), the points the tick emits for it are one per field of
    the kind's field set, each tagged bucket=<field key> and holding the
    single field <name>.histogram or <name>.timer; no two of them have the
    same bucket value. *)
Theorem one_point_per_field r wall reg1 name i reg2 w t a b c d :
  percentiles i = Some [a; b; c; d] →
  deref (heap w) (tags r) = Some t →
  registry_ok (reg1 ++ (name, i) :: reg2) = true →
  ∃ pts w' new,
    collect r wall (reg1 ++ (name, i) :: reg2) w = Done pts w' ∧
    emitted r wall reg1 name i w pts new ∧
    length new = length (field_set i) ∧
    bucket_of (heap w') <$> new ≡ₚ Some <$> field_set i ∧
    NoDup (bucket_of (heap w') <$> new) ∧
    Forall (λ p, ∃ v, Fields p = {[ field_key name i := Float64 v ]}) new.
Proof.
  intros Hps Ht Hok.
  destruct (collect_total r wall _ w t Ht Hok) as (pts & w' & Hc).
  destruct (percentiles_expansion name i a b c d Hps) as (fl & Hexp & Hset & _).
  destruct (collect_bucketed_view _ _ _ _ _ _ _ _ _ _ _ _ Hexp Ht Hc)
    as (new & Hem & Hview).
  pose proof (expansion_NoDup _ _ _ _ Hexp) as Hnd.
  assert (bucket_of (heap w') <$> new ≡ₚ Some <$> field_set i) as Hb.
  { rewrite <- Hset.
    trans (((λ p, (bucket_of (heap w') p, Fields p)) <$> new).*1).
    { by rewrite <- list_fmap_compose. }
    rewrite Hview. by rewrite <- !list_fmap_compose. }
  exists pts, w', new. split_and!; [done|done| |done| |].
  - apply Permutation_length in Hb. by rewrite !length_fmap in Hb.
  - rewrite Hb, <- Hset. by apply (NoDup_fmap_2 Some).
  - apply Forall_forall. intros p Hp.
    assert ((bucket_of (heap w') p, Fields p)
            ∈ (λ p, (bucket_of (heap w') p, Fields p)) <$> new) as Hin.
    { apply list_elem_of_fmap. by exists p. }
    rewrite Hview in Hin. apply list_elem_of_fmap in Hin as ([k v] & Heq & _).
    exists v. by injection Heq.
Qed.

(** C7, as the code has it: for a Counter named [name] with count [N] the
    tick emits exactly one point; its field set is the single entry
    <name>.count = N and its tag set is the base tag map itself, to which
    nothing is added: the point has a bucket tag exactly when the base
    tags have one. *)
Theorem counter_point r wall reg1 name N reg2 w t :
  deref (heap w) (tags r) = Some t →
  registry_ok (reg1 ++ (name, Counter N) :: reg2) = true →
  ∃ pts w' p,
    collect r wall (reg1 ++ (name, Counter N) :: reg2) w = Done pts w' ∧
    emitted r wall reg1 name (Counter N) w pts [p] ∧
    Fields p = {[ name +:+ ".count" := Int64 N ]} ∧
    Tags p = tags r ∧
    tag_set (heap w') p = Some t ∧
    bucket_of (heap w') p = t !! "bucket".
Proof.
  intros Ht Hok.
  destruct (collect_total r wall _ w t Ht Hok) as (pts & w' & Hc).
  destruct (collect_entry _ _ _ _ _ _ _ _ _ _ Ht Hc)
    as (pts1 & new & pts2 & w1 & w2 & H1 & H2 & -> & Hx1 & Hx2 & Hx3).
  simpl in H2. unfold ret in H2. injection H2 as Hnew <-.
  apply app_inv_head in Hnew as <-.
  eexists _, w', _. split; [done|].
  split; [by exists pts1, pts2, w1, w1|]. simpl.
  assert (deref (heap w') (tags r) = Some t) as Ht' by eauto using extends_deref.
  unfold bucket_of, tag_set. simpl. rewrite Ht'. done.
Qed.

End Collect.

(** A Gauge, a Counter and a Meter: the four points of the Meter have tag
    sets of their own. *)
Lemma bucketed_tags_fresh_witness :
  deref (heap Sample.w0) (tags Sample.r0) = Some Sample.base_tags ∧
  registry_ok ([("heap.used", Gauge 1024); ("requests", Counter 12)]
                 ++ ("rate", Meter Sample.meter) :: []) = true ∧
  ∃ pts w' new,
    collect Sample.r0 1234%Z
      ([("heap.used", Gauge 1024); ("requests", Counter 12)]
         ++ ("rate", Meter Sample.meter) :: []) Sample.w0 = Done pts w' ∧
    emitted Sample.r0 1234%Z
      [("heap.used", Gauge 1024); ("requests", Counter 12)]
      "rate" (Meter Sample.meter) Sample.w0 pts new ∧
    deref (heap w') (tags Sample.r0) = Some Sample.base_tags ∧
    ∀ p k v, p ∈ new →
      ∃ w'', map_assign (Tags p) k v w' = Done tt w'' ∧
             deref (heap w'') (tags Sample.r0) = Some Sample.base_tags.
Proof.
  split; [reflexivity|]. split; [reflexivity|].
  apply (bucketed_tags_fresh (E := Sample.env None) Sample.r0 1234%Z
           [("heap.used", Gauge 1024); ("requests", Counter 12)]
           "rate" (Meter Sample.meter) [] Sample.w0 Sample.base_tags);
    reflexivity.
Defined.

(** A histogram whose percentiles come back as 8, 6, 7, 5, between a Gauge
    and a Counter. *)
Lemma percentiles_positional_witness :
  percentiles (Histogram Sample.histogram) = Some [8; 6; 7; 5]%float ∧
  deref (heap Sample.w0) (tags Sample.r0) = Some Sample.base_tags ∧
  registry_ok ([("heap.used", Gauge 1024)] ++ ("h", Histogram Sample.histogram)
                 :: [("requests", Counter 12)]) = true ∧
  ∃ pts w' new,
    collect Sample.r0 1234%Z
      ([("heap.used", Gauge 1024)] ++ ("h", Histogram Sample.histogram)
         :: [("requests", Counter 12)]) Sample.w0 = Done pts w' ∧
    emitted Sample.r0 1234%Z [("heap.used", Gauge 1024)] "h"
      (Histogram Sample.histogram) Sample.w0 pts new ∧
    labelled (heap w') new "h.histogram" "p50" 8 ∧
    labelled (heap w') new "h.histogram" "p75" 6 ∧
    labelled (heap w') new "h.histogram" "p95" 7 ∧
    labelled (heap w') new "h.histogram" "p99" 5.
Proof.
  split; [reflexivity|]. split; [reflexivity|]. split; [reflexivity|].
  apply (percentiles_positional (E := Sample.env None) Sample.r0 1234%Z
           [("heap.used", Gauge 1024)] "h" (Histogram Sample.histogram)
           [("requests", Counter 12)] Sample.w0 Sample.base_tags 8 6 7 5);
    reflexivity.
Defined.

(** The thirteen points of a timer. *)
Lemma one_point_per_field_witness :
  percentiles (Timer Sample.timer) = Some [8; 6; 7; 5]%float ∧
  deref (heap Sample.w0) (tags Sample.r0) = Some Sample.base_tags ∧
  registry_ok ([("heap.used", Gauge 1024)] ++ ("t", Timer Sample.timer)
                 :: [("requests", Counter 12)]) = true ∧
  ∃ pts w' new,
    collect Sample.r0 1234%Z
      ([("heap.used", Gauge 1024)] ++ ("t", Timer Sample.timer)
         :: [("requests", Counter 12)]) Sample.w0 = Done pts w' ∧
    emitted Sample.r0 1234%Z [("heap.used", Gauge 1024)] "t"
      (Timer Sample.timer) Sample.w0 pts new ∧
    length new = 13 ∧
    bucket_of (heap w') <$> new ≡ₚ Some <$> field_set (Timer Sample.timer) ∧
    NoDup (bucket_of (heap w') <$> new) ∧
    Forall (λ p, ∃ v, Fields p = {[ "t.timer" := Float64 v ]}) new.
Proof.
  split; [reflexivity|]. split; [reflexivity|]. split; [reflexivity|].
  apply (one_point_per_field (E := Sample.env None) Sample.r0 1234%Z
           [("heap.used", Gauge 1024)] "t" (Timer Sample.timer)
           [("requests", Counter 12)] Sample.w0 Sample.base_tags 8 6 7 5);
    reflexivity.
Defined.

(** A Counter between a Gauge and a Meter. *)
Lemma counter_point_witness :
  deref (heap Sample.w0) (tags Sample.r0) = Some Sample.base_tags ∧
  registry_ok ([("heap.used", Gauge 1024)] ++ ("requests", Counter 12)
                 :: [("rate", Meter Sample.meter)]) = true ∧
  ∃ pts w' p,
    collect Sample.r0 1234%Z
      ([("heap.used", Gauge 1024)] ++ ("requests", Counter 12)
         :: [("rate", Meter Sample.meter)]) Sample.w0 = Done pts w' ∧
    emitted Sample.r0 1234%Z [("heap.used", Gauge 1024)] "requests"
      (Counter 12) Sample.w0 pts [p] ∧
    Fields p = {[ "requests.count" := Int64 12 ]} ∧
    Tags p = tags Sample.r0 ∧
    tag_set (heap w') p = Some Sample.base_tags ∧
    bucket_of (heap w') p = Sample.base_tags !! "bucket".
Proof.
  split; [reflexivity|]. split; [reflexivity|].
  apply (counter_point (E := Sample.env None) Sample.r0 1234%Z
           [("heap.used", Gauge 1024)] "requests" 12%Z
           [("rate", Meter Sample.meter)] Sample.w0 Sample.base_tags);
    reflexivity.
Defined.

(** With base tags that hold a [bucket] entry, the point of a Counter has
    a [bucket] tag: the claim that it has none fails there. *)
Lemma counter_with_bucket_tag :
  ∃ p w',
    collect Sample.r0 1234%Z [("requests", Counter 12)] Sample.bucket_world
      = Done [p] w' ∧
    Fields p = {[ "requests.count" := Int64 12 ]} ∧
    tag_set (heap w') p = deref (heap w') (tags Sample.r0) ∧
    bucket_of (heap w') p = Some "blue" ∧
    bucket_of (heap w') p ≠ None.
Proof.
  eexists _, _. split; [reflexivity|]. split; [reflexivity|].
  split; [reflexivity|]. split; [reflexivity|].
  intros H. vm_compute in H. discriminate H.
Qed.

(** The point of a Counter holds the base tag map itself: assigning to its
    [bucket] entry changes the base tags of the reporter. *)
Lemma counter_tags_aliased :
  ∃ p w' w'',
    collect Sample.r0 1234%Z [("requests", Counter 12)] Sample.w0
      = Done [p] w' ∧
    map_assign (Tags p) "bucket" "p99" w' = Done tt w'' ∧
    deref (heap w') (tags Sample.r0) = Some {[ "host" := "a" ]} ∧
    deref (heap w'') (tags Sample.r0) = Some {[ "bucket" := "p99"; "host" := "a" ]} ∧
    deref (heap w'') (tags Sample.r0) ≠ deref (heap w') (tags Sample.r0).
Proof.
  eexists _, _, _. split; [reflexivity|]. split; [reflexivity|].
  split; [reflexivity|]. split; [vm_compute; reflexivity|].
  intros H. apply (f_equal (λ o, o ≫= (.!! "bucket"))) in H.
  vm_compute in H. discriminate H.
Qed.

(** ** Batches *)

Section Chunks.
Context {A : Type}.
Implicit Types l : list A.

Lemma chunks_upto_fuel fuel n l :
  0 < n → length l ≤ fuel → chunks_upto fuel n l = chunks n l.
Proof.
  intros Hn. unfold chunks.
  remember (length l) as m eqn:Hm.
  revert fuel l Hm. induction (lt_wf m) as [m _ IH]. intros fuel l -> Hf.
  destruct l as [|x l]; [by destruct fuel|].
  simpl in Hf. destruct fuel as [|fuel]; [lia|].
  change (take n (x :: l) :: chunks_upto fuel n (drop n (x :: l)) =
          take n (x :: l) :: chunks_upto (length l) n (drop n (x :: l))).
  f_equal.
  assert (length (drop n (x :: l)) ≤ length l) as Hd.
  { rewrite length_drop. simpl. lia. }
  assert (length (drop n (x :: l)) < length (x :: l)) as Hlt by (simpl; lia).
  rewrite (IH _ Hlt fuel _ eq_refl) by lia.
  symmetry. apply (IH _ Hlt); [done | lia].
Qed.

Lemma chunks_cons n l :
  0 < n → l ≠ [] → chunks n l = take n l :: chunks n (drop n l).
Proof.
  intros Hn Hl. destruct l as [|x l]; [done|]. unfold chunks at 1. simpl.
  f_equal. apply chunks_upto_fuel; [done|]. rewrite length_drop. simpl. lia.
Qed.

Lemma chunks_ind (n : nat) (P : list A → Prop) :
  0 < n → P [] → (∀ l, l ≠ [] → P (drop n l) → P l) → ∀ l, P l.
Proof.
  intros Hn Hnil Hstep l.
  remember (length l) as m eqn:Hm.
  revert l Hm. induction (lt_wf m) as [m _ IH]. intros l ->.
  destruct l as [|x l]; [done|]. apply Hstep; [done|].
  apply (IH (length (drop n (x :: l)))); [|done].
  rewrite length_drop. simpl. lia.
Qed.

Lemma chunks_concat n l : 0 < n → concat (chunks n l) = l.
Proof.
  intros Hn. pattern l. apply (chunks_ind n); [done..|]. clear l.
  intros l Hl IH.
  rewrite chunks_cons by done. simpl. rewrite IH. apply take_drop.
Qed.

Lemma chunks_Forall n l :
  0 < n → Forall (λ c, 0 < length c ≤ n) (chunks n l).
Proof.
  intros Hn. pattern l. apply (chunks_ind n); [done|by constructor|]. clear l.
  intros l Hl IH.
  rewrite chunks_cons by done. constructor; [|done].
  rewrite length_take. destruct l; [done|]. simpl. lia.
Qed.

Lemma chunks_length n l : 0 < n → length (chunks n l) = ceil_div (length l) n.
Proof.
  intros Hn. unfold ceil_div. pattern l. apply (chunks_ind n); [done| |]; clear l.
  - simpl. symmetry. apply Nat.div_small. lia.
  - intros l Hl IH. rewrite chunks_cons by done. simpl. rewrite IH, length_drop.
    assert (0 < length l) by (destruct l; [done|simpl; lia]).
    destruct (decide (length l ≤ n)) as [Hle|Hgt].
    + replace (length l - n) with 0 by lia. simpl.
      rewrite (Nat.div_small (n - 1)) by lia.
      apply (Nat.div_unique _ _ _ (length l - 1)); lia.
    + replace (length l + n - 1) with ((length l - n + n - 1) + 1 * n) by lia.
      rewrite Nat.div_add by lia. lia.
Qed.

(** [ceil_div P B] is the least number of chunks of [B] that hold [P]. *)
Lemma ceil_div_ceiling (P B : nat) :
  0 < B → P ≤ ceil_div P B * B < P + B.
Proof.
  intros HB. unfold ceil_div.
  pose proof (Nat.div_mod (P + B - 1) B ltac:(lia)) as Hdm.
  pose proof (Nat.mod_upper_bound (P + B - 1) B ltac:(lia)). nia.
Qed.

(** With a chunk size that covers the list, the list is the one chunk. *)
Lemma chunks_all n l : 0 < n → length l ≤ n → l ≠ [] → chunks n l = [l].
Proof.
  intros Hn Hle Hl. rewrite chunks_cons by done.
  rewrite take_ge, drop_ge by done. done.
Qed.

End Chunks.

(** ** The batched writes of [send] *)

Section Writes.
Context `{E : Env}.

Lemma wrap_int_small z : (- 2 ^ 63 ≤ z < 2 ^ 63)%Z → wrap_int z = z.
Proof. intros Hz. unfold wrap_int. rewrite Z.mod_small; lia. Qed.

(** The slice the loop takes at index [i] is the next chunk. *)
Lemma slice_chunk (pts : list Point) (i n : nat) w :
  i < length pts → 0 < n →
  slice pts (Z.of_nat i)
    (if (len pts <? Z.of_nat i + Z.of_nat n)%Z then len pts
     else (Z.of_nat i + Z.of_nat n)%Z) w
  = Done (take n (drop i pts)) w.
Proof.
  intros Hi Hn. unfold slice, len.
  destruct (Z.ltb_spec (Z.of_nat (length pts)) (Z.of_nat i + Z.of_nat n)) as [Hlt|Hge].
  - rewrite decide_True by lia. unfold ret. f_equal.
    replace (Z.to_nat (Z.of_nat (length pts) - Z.of_nat i)) with (length pts - i) by lia.
    rewrite Nat2Z.id.
    rewrite !take_ge; [done|rewrite length_drop; lia..].
  - rewrite decide_True by lia. unfold ret. f_equal.
    replace (Z.to_nat (Z.of_nat i + Z.of_nat n - Z.of_nat i)) with n by lia.
    by rewrite Nat2Z.id.
Qed.

(** The loop of [send], entered at a multiple [i] of the batch size,
    writes the chunks of the points from [i] on; the fuel [send] gives it
    is enough. *)
Lemma write_loop_chunks r (pts : list Point) (B : nat) fuel i w :
  0 < B → (Z.of_nat B ≤ max_int)%Z → (len pts ≤ 2 ^ 62)%Z →
  i = 0 ∨ B ≤ i →
  length pts - i < fuel →
  write_loop fuel r pts (Z.of_nat B) (Z.of_nat i) w =
    write_all r (chunks B (drop i pts)) w.
Proof.
  intros HB Hmax Hlen. unfold max_int, len in *.
  revert i w. induction fuel as [|fuel IH]; intros i w Hi Hf; [lia|].
  simpl. unfold len.
  destruct (Z.ltb_spec (Z.of_nat i) (Z.of_nat (length pts))) as [Hlt|Hge].
  - rewrite wrap_int_small by lia.
    assert (drop i pts ≠ []) as Hne.
    { intros Hd. apply (f_equal length) in Hd. rewrite length_drop in Hd.
      simpl in Hd. lia. }
    rewrite (chunks_cons B (drop i pts)) by done. simpl.
    unfold bind at 1. fold (len pts).
    rewrite slice_chunk by lia.
    unfold bind. destruct (Write r _ w) as [[e|] w1| |]; [done| |done..].
    rewrite <- Nat2Z.inj_add, drop_drop.
    apply IH; lia.
  - rewrite drop_ge by lia. done.
Qed.

(** [send] writes the batches of the spec, in order, up to the first
    write that fails. *)
Lemma write_batches_all r pts w :
  (maxBatchSize r ≤ max_int)%Z → (len pts ≤ 2 ^ 62)%Z →
  write_batches r pts w = write_all r (batches r pts) w.
Proof.
  intros Hmax Hlen. unfold write_batches, batches.
  destruct (Z.leb_spec (maxBatchSize r) 0) as [Hle|Hgt].
  - destruct pts as [|p pts]; [done|].
    unfold len in *. rewrite Nat2Z.id.
    apply (write_loop_chunks r (p :: pts) (length (p :: pts)) _ 0);
      [simpl; lia|unfold max_int, len in *; lia|done|by left|lia].
  - assert (maxBatchSize r = Z.of_nat (Z.to_nat (maxBatchSize r))) as Heq by lia.
    rewrite Heq at 1.
    apply (write_loop_chunks r pts (Z.to_nat (maxBatchSize r)) _ 0);
      [lia|lia|done|by left|lia].
Qed.

Lemma write_result_0 c db b bs rem :
  write_result c db (b :: bs) rem 0 = (client_Write c (mkBatchPoints b db) rem).2.
Proof. done. Qed.

Lemma write_result_S c db b bs rem j :
  write_result c db (b :: bs) rem (S j) =
    write_result c db bs (client_Write c (mkBatchPoints b db) rem).1 j.
Proof. done. Qed.

Lemma Write_Done r c b w :
  client r = Some c →
  Write r (mkBatchPoints b (database r)) w =
    Done (client_Write c (mkBatchPoints b (database r)) (remote w)).2
      (mkWorld (heap w) (client_Write c (mkBatchPoints b (database r)) (remote w)).1
         (ranges w)
         (trace w ++ [write_event c (database r)
                        (client_Write c (mkBatchPoints b (database r)) (remote w)).2 b])).
Proof.
  intros Hc. unfold Write. rewrite Hc.
  by destruct (client_Write c _ (remote w)).
Qed.

(** When the write of batch [k] is the first to fail: the batches up to
    [k] are written, and no other. *)
Lemma write_all_first_failure r c bs w k e b :
  client r = Some c →
  bs !! k = Some b →
  write_result c (database r) bs (remote w) k = Some e →
  (∀ j, j < k → write_result c (database r) bs (remote w) j = None) →
  write_all r bs w =
    Done (Some e)
      (mkWorld (heap w)
         (remote_after c (database r) (take (S k) bs) (remote w))
         (ranges w)
         (trace w ++ (write_event c (database r) None <$> take k bs)
                  ++ [write_event c (database r) (Some e) b])).
Proof.
  intros Hc. revert w k. induction bs as [|b0 bs IH]; intros w k Hk He Hlt; [done|].
  simpl write_all. unfold bind. rewrite (Write_Done r c b0 w Hc).
  destruct k as [|k].
  - injection Hk as ->. rewrite write_result_0 in He. rewrite He. done.
  - pose proof (Hlt 0 ltac:(lia)) as H0. rewrite write_result_0 in H0.
    rewrite H0. rewrite write_result_S in He.
    erewrite IH; [|exact Hk|exact He|].
    + simpl. by rewrite <- (assoc_L (++)).
    + intros j Hj. simpl. rewrite <- write_result_S. apply Hlt. lia.
Qed.

(** When no write fails: every batch is written. *)
Lemma write_all_ok r c bs w :
  client r = Some c →
  (∀ j, j < length bs → write_result c (database r) bs (remote w) j = None) →
  write_all r bs w =
    Done None
      (mkWorld (heap w) (remote_after c (database r) bs (remote w)) (ranges w)
         (trace w ++ (write_event c (database r) None <$> bs))).
Proof.
  intros Hc. revert w. induction bs as [|b0 bs IH]; intros w Hok.
  - simpl. unfold ret. rewrite app_nil_r. by destruct w.
  - simpl write_all. unfold bind. rewrite (Write_Done r c b0 w Hc).
    pose proof (Hok 0 ltac:(simpl; lia)) as H0. rewrite write_result_0 in H0.
    rewrite H0. rewrite IH.
    + simpl. by rewrite <- (assoc_L (++)).
    + intros j Hj. simpl. rewrite <- write_result_S. apply Hok. simpl. lia.
Qed.

(** Either no write of [bs] fails, or one is the first to fail. *)
Lemma first_failure_cases c db bs rem :
  (∀ j, j < length bs → write_result c db bs rem j = None) ∨
  ∃ k b e, bs !! k = Some b ∧ write_result c db bs rem k = Some e ∧
           ∀ j, j < k → write_result c db bs rem j = None.
Proof.
  revert rem. induction bs as [|b0 bs IH]; intros rem.
  - left. simpl. lia.
  - destruct (write_result c db (b0 :: bs) rem 0) as [e|] eqn:H0.
    + right. exists 0, b0, e. split_and!; [done..|lia].
    + destruct (IH (client_Write c (mkBatchPoints b0 db) rem).1)
        as [Hok|(k & b & e & Hk & He & Hlt)].
      * left. intros [|j] Hj; [done|]. rewrite write_result_S. apply Hok.
        simpl in Hj. lia.
      * right. exists (S k), b, e. split_and!; [done..|].
        intros [|j] Hj; [done|]. rewrite write_result_S. apply Hlt. lia.
Qed.

Lemma written_app evs1 evs2 : written (evs1 ++ evs2) = written evs1 ++ written evs2.
Proof. apply omap_app. Qed.

Lemma written_write_events c db err (bs : list (list Point)) :
  written (write_event c db err <$> bs) = bs.
Proof.
  induction bs as [|b bs IH]; [done|].
  rewrite fmap_cons. change (b :: written (write_event c db err <$> bs) = b :: bs).
  by rewrite IH.
Qed.

(** What [send] does once the points of the tick are there. *)
Lemma send_collect r wall reg w t pts w1 :
  deref (heap w) (tags r) = Some t →
  collect r wall reg w = Done pts w1 →
  (maxBatchSize r ≤ max_int)%Z → (len pts ≤ 2 ^ 62)%Z →
  send r wall reg w = write_all r (batches r pts) w1 ∧
  remote w1 = remote w ∧ trace w1 = trace w.
Proof.
  intros Ht Hc Hmax Hlen. unfold send, bind. rewrite Hc.
  split; [by apply write_batches_all|].
  destruct (Each_frame _ _ _ _ _ _ _ _ Ht Hc) as (_ & _ & (_ & ? & ?) & _). done.
Qed.

(** C5: when the write of batch [k] is the first to fail, the writes made
    are those of the batches up to [k], in order, the last one failing;
    [send] returns that error; the server is left as those writes left it.
    [send] returns [nil] if and only if no write of a batch fails. *)
Theorem fail_fast r c wall reg w t pts w1 :
  client r = Some c →
  deref (heap w) (tags r) = Some t →
  collect r wall reg w = Done pts w1 →
  (maxBatchSize r ≤ max_int)%Z → (len pts ≤ 2 ^ 62)%Z →
  ∃ res w',
    send r wall reg w = Done res w' ∧
    (∀ k b e,
       batches r pts !! k = Some b →
       write_result c (database r) (batches r pts) (remote w) k = Some e →
       (∀ j, j < k →
          write_result c (database r) (batches r pts) (remote w) j = None) →
       res = Some e ∧
       trace w' = trace w
                    ++ (write_event c (database r) None <$> take k (batches r pts))
                    ++ [write_event c (database r) (Some e) b] ∧
       written (trace w') = written (trace w) ++ take (S k) (batches r pts) ∧
       remote w' = remote_after c (database r) (take (S k) (batches r pts)) (remote w)) ∧
    (res = None ↔
       ∀ j, j < length (batches r pts) →
         write_result c (database r) (batches r pts) (remote w) j = None).
Proof.
  intros Hc Ht Hcol Hmax Hlen.
  destruct (send_collect r wall reg w t pts w1 Ht Hcol Hmax Hlen) as (-> & Hrem & Htr).
  rewrite <- Hrem, <- Htr.
  destruct (first_failure_cases c (database r) (batches r pts) (remote w1))
    as [Hok|(k & b & e & Hk & He & Hlt)].
  - rewrite (write_all_ok r c _ w1 Hc Hok). eexists _, _. split; [done|]. split.
    + intros k b e Hk He _. apply lookup_lt_Some in Hk. rewrite Hok in He; done.
    + done.
  - rewrite (write_all_first_failure r c _ w1 k e b Hc Hk He Hlt).
    eexists _, _. split; [done|]. split.
    + intros k' b' e' Hk' He' Hlt'.
      assert (k' = k) as ->.
      { destruct (Nat.lt_trichotomy k' k) as [Hl|[->|Hl]]; [|done|].
        - rewrite (Hlt k' Hl) in He'. done.
        - rewrite (Hlt' k Hl) in He. done. }
      assert (b' = b) as -> by congruence. assert (e' = e) as -> by congruence.
      simpl. split_and!; [done..| |done].
      rewrite !written_app, written_write_events. simpl.
      f_equal. by rewrite (take_S_r _ _ b).
    + split; [done|]. intros Hok. apply lookup_lt_Some in Hk.
      rewrite (Hok k Hk) in He. done.
Qed.

(** C3, as the code has it: with [maxBatchSize = B > 0], the [P] points
    of the tick form the [ceil (P / B)] contiguous batches of at most [B]
    points that cover them in order; the writes [send] makes are, in
    order, those of the first [k] of these batches, one write each: of all
    the batches when [send] returns [nil], and of the batches up to the
    first one whose write fails when it returns that error. *)
Theorem batches_written_in_order r c wall reg w t pts w1 :
  (0 < maxBatchSize r)%Z →
  client r = Some c →
  deref (heap w) (tags r) = Some t →
  collect r wall reg w = Done pts w1 →
  (maxBatchSize r ≤ max_int)%Z → (len pts ≤ 2 ^ 62)%Z →
  length (batches r pts) = ceil_div (length pts) (Z.to_nat (maxBatchSize r)) ∧
  Forall (λ b, (0 < len b ≤ maxBatchSize r)%Z) (batches r pts) ∧
  concat (batches r pts) = pts ∧
  ∃ res w' k,
    send r wall reg w = Done res w' ∧
    written (trace w') = written (trace w) ++ take k (batches r pts) ∧
    k ≤ length (batches r pts) ∧
    (res = None → k = length (batches r pts)) ∧
    (∀ e, res = Some e →
       0 < k ∧
       write_result c (database r) (batches r pts) (remote w) (k - 1) = Some e ∧
       ∀ j, j < k - 1 →
         write_result c (database r) (batches r pts) (remote w) j = None).
Proof.
  intros HB Hc Ht Hcol Hmax Hlen.
  assert (batches r pts = chunks (Z.to_nat (maxBatchSize r)) pts) as Hbs.
  { unfold batches. by rewrite (proj2 (Z.leb_gt _ _) HB). }
  split_and!.
  - rewrite Hbs. apply chunks_length. lia.
  - rewrite Hbs. eapply Forall_impl; [apply chunks_Forall; lia|].
    intros b. simpl. unfold len. lia.
  - rewrite Hbs. apply chunks_concat. lia.
  - destruct (send_collect r wall reg w t pts w1 Ht Hcol Hmax Hlen) as (Hs' & Hrem & Htr).
    destruct (first_failure_cases c (database r) (batches r pts) (remote w1))
      as [Hok|(k & b & e & Hk & He & Hlt)].
    + exists None, (mkWorld (heap w1)
                      (remote_after c (database r) (batches r pts) (remote w1))
                      (ranges w1)
                      (trace w1 ++ (write_event c (database r) None <$> batches r pts))),
        (length (batches r pts)).
      rewrite Hs'. split; [by apply write_all_ok|]. simpl.
      rewrite written_app, written_write_events, firstn_all, Htr.
      split_and!; done.
    + eexists (Some e), _, (S k).
      rewrite Hs'. split; [by apply (write_all_first_failure r c _ w1 k e b)|].
      simpl. rewrite !written_app, written_write_events, Htr. simpl.
      apply lookup_lt_Some in Hk as Hk'. rewrite <- Hrem, Nat.sub_0_r.
      split_and!; [|lia|done|].
      * f_equal. by rewrite (take_S_r _ _ b).
      * intros e' [= <-]. split_and!; [lia|done..].
Qed.

(** C4, as the code has it: with [maxBatchSize <= 0], [send] makes one
    write, of a batch with all the points of the tick, when there are
    points, and no write when there is none. *)
Theorem unbounded_single_batch r c wall reg w t pts w1 :
  (maxBatchSize r ≤ 0)%Z →
  client r = Some c →
  deref (heap w) (tags r) = Some t →
  collect r wall reg w = Done pts w1 →
  (len pts ≤ 2 ^ 62)%Z →
  ∃ res w',
    send r wall reg w = Done res w' ∧
    written (trace w') =
      written (trace w) ++ match pts with [] => [] | _ :: _ => [pts] end.
Proof.
  intros HB Hc Ht Hcol Hlen.
  assert (maxBatchSize r ≤ max_int)%Z as Hmax by (unfold max_int; lia).
  destruct (send_collect r wall reg w t pts w1 Ht Hcol Hmax Hlen) as (Hs & Hrem & Htr).
  assert (batches r pts = match pts with [] => [] | _ :: _ => [pts] end) as Hbs.
  { unfold batches. rewrite (proj2 (Z.leb_le _ _) HB). unfold len.
    rewrite Nat2Z.id. destruct pts as [|p pts]; [done|].
    apply chunks_all; [simpl; lia|done..]. }
  rewrite Hs, <- Htr.
  destruct (first_failure_cases c (database r) (batches r pts) (remote w1))
    as [Hok|(k & b & e & Hk & He & Hlt)].
  - rewrite (write_all_ok r c _ w1 Hc Hok). eexists _, _. split; [done|]. simpl.
    by rewrite written_app, written_write_events, Hbs.
  - rewrite (write_all_first_failure r c _ w1 k e b Hc Hk He Hlt).
    eexists _, _. split; [done|]. simpl.
    rewrite !written_app, written_write_events. simpl. f_equal.
    rewrite Hbs in Hk |- *. destruct pts as [|p pts]; [done|].
    destruct k as [|k]; [|done]. by injection Hk as <-.
Qed.

End Writes.

(** Six points in batches of two, the second write failing. *)
Lemma fail_fast_witness :
  client (Sample.r2 Sample.second_fails) = Some (Sample.handle Sample.second_fails) ∧
  deref (heap (Sample.world Sample.second_fails)) (tags (Sample.r2 Sample.second_fails))
    = Some Sample.base_tags ∧
  (∃ w1, collect (Sample.r2 Sample.second_fails) 1234%Z Sample.registry
           (Sample.world Sample.second_fails) = Done Sample.points w1) ∧
  (maxBatchSize (Sample.r2 Sample.second_fails) ≤ max_int)%Z ∧
  (len Sample.points ≤ 2 ^ 62)%Z ∧
  ∃ res w',
    send (Sample.r2 Sample.second_fails) 1234%Z Sample.registry
      (Sample.world Sample.second_fails) = Done res w' ∧
    (∀ k b e,
       batches (Sample.r2 Sample.second_fails) Sample.points !! k = Some b →
       write_result (Sample.handle Sample.second_fails) "db"
         (batches (Sample.r2 Sample.second_fails) Sample.points) 0 k = Some e →
       (∀ j, j < k →
          write_result (Sample.handle Sample.second_fails) "db"
            (batches (Sample.r2 Sample.second_fails) Sample.points) 0 j = None) →
       res = Some e ∧
       trace w' =
         [] ++ (write_event (Sample.handle Sample.second_fails) "db" None
                  <$> take k (batches (Sample.r2 Sample.second_fails) Sample.points))
            ++ [write_event (Sample.handle Sample.second_fails) "db" (Some e) b] ∧
       written (trace w') =
         [] ++ take (S k) (batches (Sample.r2 Sample.second_fails) Sample.points) ∧
       remote w' =
         remote_after (Sample.handle Sample.second_fails) "db"
           (take (S k) (batches (Sample.r2 Sample.second_fails) Sample.points)) 0) ∧
    (res = None ↔
       ∀ j, j < length (batches (Sample.r2 Sample.second_fails) Sample.points) →
         write_result (Sample.handle Sample.second_fails) "db"
           (batches (Sample.r2 Sample.second_fails) Sample.points) 0 j = None).
Proof.
  split; [reflexivity|]. split; [reflexivity|].
  split; [eexists; vm_compute; reflexivity|].
  split; [by vm_compute|]. split; [by vm_compute|].
  eapply (fail_fast (E := Sample.env Sample.second_fails)
            (Sample.r2 Sample.second_fails) (Sample.handle Sample.second_fails)
            1234%Z Sample.registry (Sample.world Sample.second_fails)
            Sample.base_tags Sample.points);
    [reflexivity | reflexivity | vm_compute; reflexivity
    | by vm_compute | by vm_compute].
Defined.

(** The example of the spec: of three batches, with the second write
    failing, two are written and [send] returns the error. *)
Example second_of_three_fails :
  ∃ b1 b2 b3 w',
    batches (Sample.r2 Sample.second_fails) Sample.points = [b1; b2; b3] ∧
    send (Sample.r2 Sample.second_fails) 1234%Z Sample.registry
      (Sample.world Sample.second_fails) = Done (Some "write failed") w' ∧
    written (trace w') = [b1; b2].
Proof.
  eexists _, _, _, _. split; [vm_compute; reflexivity|].
  split; vm_compute; reflexivity.
Qed.

(** Six points in batches of two on a server that takes every write. *)
Lemma batches_written_in_order_witness :
  (0 < maxBatchSize (Sample.r2 None))%Z ∧
  client (Sample.r2 None) = Some (Sample.handle None) ∧
  deref (heap (Sample.world None)) (tags (Sample.r2 None)) = Some Sample.base_tags ∧
  (∃ w1, collect (Sample.r2 None) 1234%Z Sample.registry (Sample.world None)
           = Done Sample.points w1) ∧
  (maxBatchSize (Sample.r2 None) ≤ max_int)%Z ∧
  (len Sample.points ≤ 2 ^ 62)%Z ∧
  length (batches (Sample.r2 None) Sample.points) = ceil_div 6 2 ∧
  Forall (λ b, (0 < len b ≤ 2)%Z) (batches (Sample.r2 None) Sample.points) ∧
  concat (batches (Sample.r2 None) Sample.points) = Sample.points ∧
  ∃ res w' k,
    send (Sample.r2 None) 1234%Z Sample.registry (Sample.world None)
      = Done res w' ∧
    written (trace w') = [] ++ take k (batches (Sample.r2 None) Sample.points) ∧
    k ≤ length (batches (Sample.r2 None) Sample.points) ∧
    (res = None → k = length (batches (Sample.r2 None) Sample.points)) ∧
    (∀ e, res = Some e →
       0 < k ∧
       write_result (Sample.handle None) "db"
         (batches (Sample.r2 None) Sample.points) 0 (k - 1) = Some e ∧
       ∀ j, j < k - 1 →
         write_result (Sample.handle None) "db"
           (batches (Sample.r2 None) Sample.points) 0 j = None).
Proof.
  split; [reflexivity|]. split; [reflexivity|]. split; [reflexivity|].
  split; [eexists; vm_compute; reflexivity|].
  split; [by vm_compute|]. split; [by vm_compute|].
  eapply (batches_written_in_order (E := Sample.env None) (Sample.r2 None)
            (Sample.handle None) 1234%Z Sample.registry (Sample.world None)
            Sample.base_tags Sample.points);
    [reflexivity | reflexivity | reflexivity | vm_compute; reflexivity
    | by vm_compute | by vm_compute].
Defined.

(** Six points in batches of two make three batches; when the first write
    fails, [send] makes that one write and no other: the write operation
    is not invoked once per batch. *)
Lemma first_write_fails_one_write :
  ∃ w1 w',
    collect (Sample.r2 Sample.first_fails) 1234%Z Sample.registry
      (Sample.world Sample.first_fails) = Done Sample.points w1 ∧
    ceil_div (length Sample.points) 2 = 3 ∧
    send (Sample.r2 Sample.first_fails) 1234%Z Sample.registry
      (Sample.world Sample.first_fails) = Done (Some "write failed") w' ∧
    written (trace w') = [take 2 Sample.points] ∧
    length (written (trace w')) ≠ ceil_div (length Sample.points) 2.
Proof.
  eexists _, _. split; [vm_compute; reflexivity|].
  split; [reflexivity|].
  split; [vm_compute; reflexivity|]. split; [vm_compute; reflexivity|].
  intros H. vm_compute in H. discriminate H.
Qed.

(** Three points and no batch limit: one write with the three of them. *)
Lemma unbounded_single_batch_witness :
  (maxBatchSize Sample.r0 ≤ 0)%Z ∧
  client Sample.r0 = Some (Sample.handle None) ∧
  deref (heap Sample.w0) (tags Sample.r0) = Some Sample.base_tags ∧
  collect Sample.r0 1234%Z Sample.plain_registry Sample.w0
    = Done Sample.plain_points Sample.w0 ∧
  (len Sample.plain_points ≤ 2 ^ 62)%Z ∧
  ∃ res w',
    send Sample.r0 1234%Z Sample.plain_registry Sample.w0 = Done res w' ∧
    written (trace w') = [] ++ [Sample.plain_points].
Proof.
  split; [by vm_compute|]. split; [reflexivity|]. split; [reflexivity|].
  split; [vm_compute; reflexivity|]. split; [by vm_compute|].
  apply (unbounded_single_batch (E := Sample.env None) Sample.r0
           (Sample.handle None) 1234%Z Sample.plain_registry Sample.w0
           Sample.base_tags Sample.plain_points Sample.w0);
    [by vm_compute | reflexivity | reflexivity | vm_compute; reflexivity
    | by vm_compute].
Defined.

(** An empty registry and no batch limit: [send] makes no write at all,
    not one write of an empty batch. *)
Lemma empty_tick_no_write :
  ∃ w',
    collect Sample.r0 1234%Z [] Sample.w0 = Done [] Sample.w0 ∧
    (maxBatchSize Sample.r0 ≤ 0)%Z ∧
    send Sample.r0 1234%Z [] Sample.w0 = Done None w' ∧
    trace w' = [] ∧
    written (trace w') = [].
Proof.
  eexists. split; [reflexivity|]. split; [by vm_compute|].
  split; [reflexivity|]. split; reflexivity.
Qed.

(** ** Timestamps *)

Section Timestamps.
Context `{E : Env}.

(** Truncation to a positive [d] rounds down to the multiple of [d] below. *)
Lemma Truncate_floor (t d : Z) :
  (0 < d)%Z → time.Truncate t d = (d * (t `div` d))%Z.
Proof.
  intros Hd. unfold time.Truncate.
  destruct (Z.leb_spec d 0) as [?|_]; [lia|].
  pose proof (Z.div_mod t d ltac:(lia)). lia.
Qed.

Lemma Truncate_multiple (t d : Z) :
  (0 < d)%Z → (time.Truncate t d `mod` d = 0)%Z ∧
              (time.Truncate t d ≤ t < time.Truncate t d + d)%Z.
Proof.
  intros Hd. rewrite Truncate_floor by done. split.
  - rewrite Z.mul_comm. by apply Z.mod_mul, Z.neq_sym, Z.lt_neq.
  - pose proof (Z.div_mod t d ltac:(lia)).
    pose proof (Z.mod_pos_bound t d Hd). lia.
Qed.

Lemma collect_Time r wall reg w t pts w' :
  deref (heap w) (tags r) = Some t →
  collect r wall reg w = Done pts w' →
  Forall (λ p, Time p = timestamp r wall) pts.
Proof.
  intros Ht Hc. destruct (Each_frame _ _ _ _ _ _ _ _ Ht Hc) as (new & -> & _ & Hn).
  done.
Qed.

(** C6: with the alignment flag set and a report interval [I], the points
    of a tick carry the clock reading of the tick truncated to a multiple
    of [I]; two ticks at clock readings [t1] and [t2] with
    [floor (t1 / I) = floor (t2 / I)] give all their points one and the
    same timestamp. With the flag unset the points carry the clock reading
    as it is. *)
Theorem aligned_timestamps r t1 t2 reg1 reg2 w1 w2 tg1 tg2 :
  (0 < interval r)%Z →
  deref (heap w1) (tags r) = Some tg1 →
  deref (heap w2) (tags r) = Some tg2 →
  registry_ok reg1 = true →
  registry_ok reg2 = true →
  ∃ pts1 w1' pts2 w2',
    collect r t1 reg1 w1 = Done pts1 w1' ∧
    collect r t2 reg2 w2 = Done pts2 w2' ∧
    (align r = true →
       (t1 `div` interval r = t2 `div` interval r)%Z →
       (∀ p, p ∈ pts1 ++ pts2 → Time p = (interval r * (t1 `div` interval r))%Z) ∧
       (∀ p q, p ∈ pts1 ++ pts2 → q ∈ pts1 ++ pts2 → Time p = Time q)) ∧
    (align r = false →
       (∀ p, p ∈ pts1 → Time p = t1) ∧ (∀ p, p ∈ pts2 → Time p = t2)).
Proof.
  intros HI Ht1 Ht2 Hok1 Hok2.
  destruct (collect_total r t1 reg1 w1 tg1 Ht1 Hok1) as (pts1 & w1' & Hc1).
  destruct (collect_total r t2 reg2 w2 tg2 Ht2 Hok2) as (pts2 & w2' & Hc2).
  exists pts1, w1', pts2, w2'. split; [done|]. split; [done|].
  pose proof (collect_Time _ _ _ _ _ _ _ Ht1 Hc1) as H1.
  pose proof (collect_Time _ _ _ _ _ _ _ Ht2 Hc2) as H2.
  rewrite Forall_forall in H1, H2. unfold timestamp in *. split.
  - intros Ha Hfloor. rewrite Ha in H1, H2.
    assert (∀ p, p ∈ pts1 ++ pts2 →
                 Time p = (interval r * (t1 `div` interval r))%Z) as Hall.
    { intros p [Hp|Hp]%elem_of_app.
      - rewrite (H1 p Hp). by apply Truncate_floor.
      - rewrite (H2 p Hp), Hfloor. by apply Truncate_floor. }
    split; [done|]. intros p q Hp Hq. by rewrite (Hall p Hp), (Hall q Hq).
  - intros Ha. rewrite Ha in H1, H2. done.
Qed.

End Timestamps.

(** Two ticks of an aligned reporter with interval 10, at 1234 and 1239:
    every point is stamped 1230. *)
Lemma aligned_timestamps_witness :
  (0 < interval (Sample.rep None true 0))%Z ∧
  deref (heap (Sample.world None)) (tags (Sample.rep None true 0))
    = Some Sample.base_tags ∧
  registry_ok Sample.registry = true ∧
  registry_ok Sample.plain_registry = true ∧
  ∃ pts1 w1' pts2 w2',
    collect (Sample.rep None true 0) 1234%Z Sample.registry (Sample.world None)
      = Done pts1 w1' ∧
    collect (Sample.rep None true 0) 1239%Z Sample.plain_registry
      (Sample.world None) = Done pts2 w2' ∧
    (align (Sample.rep None true 0) = true →
       (1234 `div` 10 = 1239 `div` 10)%Z →
       (∀ p, p ∈ pts1 ++ pts2 → Time p = (10 * (1234 `div` 10))%Z) ∧
       (∀ p q, p ∈ pts1 ++ pts2 → q ∈ pts1 ++ pts2 → Time p = Time q)) ∧
    (align (Sample.rep None true 0) = false →
       (∀ p, p ∈ pts1 → Time p = 1234%Z) ∧ (∀ p, p ∈ pts2 → Time p = 1239%Z)).
Proof.
  split; [reflexivity|]. split; [reflexivity|].
  split; [reflexivity|]. split; [reflexivity|].
  apply (aligned_timestamps (E := Sample.env None) (Sample.rep None true 0)
           1234%Z 1239%Z Sample.registry Sample.plain_registry
           (Sample.world None) (Sample.world None)
           Sample.base_tags Sample.base_tags); reflexivity.
Defined.

(** The two ticks above, run: the nine points are stamped 1230. *)
Example aligned_ticks_1230 :
  ∃ pts1 w1' pts2 w2',
    collect (Sample.rep None true 0) 1234%Z Sample.registry (Sample.world None)
      = Done pts1 w1' ∧
    collect (Sample.rep None true 0) 1239%Z Sample.plain_registry
      (Sample.world None) = Done pts2 w2' ∧
    Time <$> pts1 ++ pts2 = replicate 9 1230%Z.
Proof.
  eexists _, _, _, _. split; [vm_compute; reflexivity|].
  split; vm_compute; reflexivity.
Qed.

(** ** Construction *)

Section Construction.
Context `{E : Env}.

(** C9: when the target address does not parse, [InfluxDBWithTags] logs
    the failure and returns: no client is made and [run] is not reached.
    When the address parses but the client cannot be made, it logs that
    failure and returns, and [run] is not reached either. [run] is reached
    only when both steps succeed. *)
Theorem construction_failures d url database measurement username password
    tags align unsafeSsl maxBatchSize w :
  (∀ e, url_Parse url = inr e →
     InfluxDBWithTags d url database measurement username password tags
       align unsafeSsl maxBatchSize w =
     Done Returned
       (add_event
          (EvLog ("unable to parse InfluxDB url " +:+ url +:+ ". err=" +:+ e))
          w)) ∧
  (∀ u c e, url_Parse url = inl u →
     client_NewClient u username password unsafeSsl = (c, Some e) →
     InfluxDBWithTags d url database measurement username password tags
       align unsafeSsl maxBatchSize w =
     Done Returned
       (add_event (EvLog ("unable to make InfluxDB client. err=" +:+ e))
          (add_event (EvNewClient c (Some e)) w))) ∧
  (∀ rep w',
     InfluxDBWithTags d url database measurement username password tags
       align unsafeSsl maxBatchSize w = Done (Running rep) w' →
     ∃ u, url_Parse url = inl u ∧
          client_NewClient u username password unsafeSsl = (client rep, None) ∧
          w' = add_event (EvNewClient (client rep) None) w).
Proof.
  unfold InfluxDBWithTags. split_and!.
  - by intros e ->.
  - intros u c e -> Hc. unfold bind, makeClient. simpl. by rewrite Hc.
  - intros rep w'. destruct (url_Parse url) as [u|e]; [|done].
    unfold bind, makeClient. simpl.
    destruct (client_NewClient u username password unsafeSsl)
      as [c [e|]] eqn:Hc; [done|].
    simpl. intros [= <- <-]. by exists u.
Qed.

End Construction.

(** An address without scheme, and a user for whom no client can be made. *)
Lemma construction_failures_witness :
  InfluxDBWithTags 10%Z "localhost:8086" "db" "m" "" "" (Some 0) false false 0%Z
    Sample.w0 =
    Done Returned
      (add_event
         (EvLog "unable to parse InfluxDB url localhost:8086. err=first path segment in URL cannot contain colon")
         Sample.w0) ∧
  InfluxDBWithTags 10%Z "http://localhost:8086" "db" "m" "nobody" "" (Some 0)
    false false 0%Z Sample.w0 =
    Done Returned
      (add_event (EvLog "unable to make InfluxDB client. err=no such user")
         (add_event (EvNewClient None (Some "no such user")) Sample.w0)).
Proof.
  split.
  - apply (proj1 (construction_failures (E := Sample.env None) 10%Z
                    "localhost:8086" "db" "m" "" "" (Some 0) false false 0%Z
                    Sample.w0)).
    reflexivity.
  - apply (proj1 (proj2 (construction_failures (E := Sample.env None) 10%Z
                    "http://localhost:8086" "db" "m" "nobody" "" (Some 0)
                    false false 0%Z Sample.w0)) "http://localhost:8086" None).
    + reflexivity.
    + reflexivity.
Defined.

(** * Further properties of the reporter *)

(** ** The translation, entry by entry *)

Section Entries.
Context `{E : Env}.

(** The two ways a call of the function passed to [Each] returns: one
    point or none on the base tags, or the points of a loop over [fields]. *)
Lemma visit_cases r now pts name i w pts' w' t :
  deref (heap w) (tags r) = Some t →
  visit r now pts name i w = Done pts' w' →
  (bucketed i = false ∧ w' = w ∧
   pts' = pts ++ match single_field name i with
                 | Some (key, v) =>
                     [mkPoint (measurement r) (tags r) {[ key := v ]} now]
                 | None => []
                 end) ∨
  (∃ key fl kvs,
     expansion name i = Some (key, fl) ∧ kvs ≡ₚ fl ∧
     pts' = pts ++ bucket_points (measurement r) key now (length (heap w)) kvs ∧
     w' = mkWorld (heap w ++ bucket_maps t kvs) (remote w)
            (S (ranges w) + length kvs) (trace w)).
Proof.
  intros Ht Hv. destruct (bucketed i) eqn:Hb.
  - right. destruct (expansion name i) as [[key fl]|] eqn:Hexp.
    + destruct (visit_bucketed r now pts name i w t key fl Hexp Ht)
        as (kvs & Hp & Heq).
      rewrite Heq in Hv. injection Hv as <- <-. by exists key, fl, kvs.
    + by rewrite visit_short_percentiles in Hv.
  - left. destruct i; try done; simpl in *; unfold ret in Hv;
      injection Hv as <- <-; split_and!; try done.
    by rewrite app_nil_r.
Qed.

(** A point of a loop over [fields], read in the store the loop leaves. *)
Lemma bucket_points_lookup m key now h t kvs ext j p :
  bucket_points m key now (length h) kvs !! j = Some p →
  ∃ k v, kvs !! j = Some (k, v) ∧
    p = mkPoint m (Some (length h + j)) {[ key := Float64 v ]} now ∧
    tag_set (h ++ bucket_maps t kvs ++ ext) p = Some (<["bucket" := k]> t).
Proof.
  unfold bucket_points. rewrite list_lookup_imap.
  destruct (kvs !! j) as [[k v]|] eqn:Hj; simpl; [|done]. intros [= <-].
  exists k, v. split_and!; [done..|]. unfold tag_set, bucket_maps. simpl.
  apply lookup_lt_Some in Hj as Hlt.
  rewrite lookup_app_r, lookup_app_l by (rewrite ?length_fmap; lia).
  replace (length h + j - length h) with j by lia.
  by rewrite list_lookup_fmap, Hj.
Qed.

(** A property of points that allocation preserves, that the points on the
    base tags have and that the points of a loop over [fields] have in the
    store the loop leaves, holds of all the points of a tick. *)
Lemma Each_Forall (P : list (gmap string string) → Point → Prop)
    r now reg pts w pts' w' t :
  (∀ h ext p, P h p → P (h ++ ext) p) →
  (∀ h key v, deref h (tags r) = Some t →
     P h (mkPoint (measurement r) (tags r) {[ key := v ]} now)) →
  (∀ h key kvs, deref h (tags r) = Some t →
     Forall (P (h ++ bucket_maps t kvs))
       (bucket_points (measurement r) key now (length h) kvs)) →
  deref (heap w) (tags r) = Some t →
  Forall (P (heap w)) pts →
  Each reg (visit r now) pts w = Done pts' w' →
  Forall (P (heap w')) pts'.
Proof.
  intros Happ Hplain Hloop. revert pts w.
  induction reg as [|[name i] reg IH]; intros pts w Ht Hpts He.
  - by injection He as <- <-.
  - simpl in He. unfold bind in He.
    destruct (visit r now pts name i w) as [pts1 w1| |] eqn:Hv; [|done..].
    destruct (visit_frame _ _ _ _ _ _ _ _ _ Ht Hv) as (_ & _ & Hx & _).
    apply (IH pts1 w1); [by eapply extends_deref| |done].
    destruct (visit_cases _ _ _ _ _ _ _ _ _ Ht Hv)
      as [(_ & -> & ->)|(key & fl & kvs & _ & _ & -> & ->)].
    + apply Forall_app. split; [done|].
      destruct (single_field name i) as [[key v]|]; [|done].
      constructor; [by apply Hplain|done].
    + simpl. apply Forall_app. split; [|by apply Hloop].
      eapply Forall_impl; [exact Hpts|]. intros p. apply Happ.
Qed.

(** X1: every point of a tick carries the reporter's measurement and the
    instant of the tick, and holds exactly one field. *)
Theorem point_shape r wall reg w t :
  deref (heap w) (tags r) = Some t →
  registry_ok reg = true →
  ∃ pts w',
    collect r wall reg w = Done pts w' ∧
    Forall (λ p, Measurement p = measurement r ∧
                 Time p = timestamp r wall ∧
                 size (Fields p) = 1) pts.
Proof.
  intros Ht Hok. destruct (collect_total r wall reg w t Ht Hok) as (pts & w' & Hc).
  exists pts, w'. split; [done|].
  apply (Each_Forall (λ _ p, Measurement p = measurement r ∧
                             Time p = timestamp r wall ∧ size (Fields p) = 1)
           r (timestamp r wall) reg [] w pts w' t); try done.
  - intros h key v _. simpl. split_and!; [done..|apply map_size_singleton].
  - intros h key kvs _. apply Forall_lookup. intros j p Hj.
    destruct (bucket_points_lookup _ _ _ _ t _ [] _ _ Hj) as (k & v & _ & -> & _).
    simpl. split_and!; [done..|apply map_size_singleton].
Qed.

(** X2: every point of a tick carries every base tag: its tag set binds
    each key other than [bucket] as the base tag map does. *)
Theorem base_tags_on_every_point r wall reg w t :
  deref (heap w) (tags r) = Some t →
  registry_ok reg = true →
  ∃ pts w',
    collect r wall reg w = Done pts w' ∧
    Forall (λ p, ∃ m, tag_set (heap w') p = Some m ∧
                      ∀ key, key ≠ "bucket" → m !! key = t !! key) pts.
Proof.
  intros Ht Hok. destruct (collect_total r wall reg w t Ht Hok) as (pts & w' & Hc).
  exists pts, w'. split; [done|].
  apply (Each_Forall (λ h p, ∃ m, tag_set h p = Some m ∧
                                 ∀ key, key ≠ "bucket" → m !! key = t !! key)
           r (timestamp r wall) reg [] w pts w' t); try done.
  - intros h ext p (m & Hm & Hkeys). exists m. split; [|done].
    by apply deref_app.
  - intros h key v Hh. by exists t.
  - intros h key kvs _. apply Forall_lookup. intros j p Hj.
    destruct (bucket_points_lookup _ _ _ _ t _ [] _ _ Hj) as (k & v & _ & _ & Htag).
    rewrite app_nil_r in Htag. eexists. split; [exact Htag|].
    intros key' Hne. by apply lookup_insert_ne.
Qed.

End Entries.

(** A tick on a Gauge, a Counter and a Meter. *)
Lemma point_shape_witness :
  deref (heap Sample.w0) (tags Sample.r0) = Some Sample.base_tags ∧
  registry_ok Sample.registry = true ∧
  ∃ pts w',
    collect Sample.r0 1234%Z Sample.registry Sample.w0 = Done pts w' ∧
    Forall (λ p, Measurement p = "m" ∧ Time p = 1234%Z ∧ size (Fields p) = 1) pts.
Proof.
  split; [reflexivity|]. split; [reflexivity|].
  apply (point_shape (E := Sample.env None) Sample.r0 1234%Z Sample.registry
           Sample.w0 Sample.base_tags); reflexivity.
Defined.

Lemma base_tags_on_every_point_witness :
  deref (heap Sample.w0) (tags Sample.r0) = Some Sample.base_tags ∧
  registry_ok Sample.registry = true ∧
  ∃ pts w',
    collect Sample.r0 1234%Z Sample.registry Sample.w0 = Done pts w' ∧
    Forall (λ p, ∃ m, tag_set (heap w') p = Some m ∧
                      ∀ key, key ≠ "bucket" → m !! key = Sample.base_tags !! key) pts.
Proof.
  split; [reflexivity|]. split; [reflexivity|].
  apply (base_tags_on_every_point (E := Sample.env None) Sample.r0 1234%Z
           Sample.registry Sample.w0 Sample.base_tags); reflexivity.
Defined.

(** ** The points of each kind *)

Section Kinds.
Context `{E : Env}.

Lemma registry_ok_entry reg1 name i reg2 :
  registry_ok (reg1 ++ (name, i) :: reg2) = true → enough_percentiles i = true.
Proof.
  unfold registry_ok. rewrite forallb_app. simpl.
  intros [_ [Hi _]%andb_prop]%andb_prop. done.
Qed.

(** The point of an entry of a kind without buckets. *)
Lemma collect_plain r wall reg1 name i reg2 w t key v :
  single_field name i = Some (key, v) →
  deref (heap w) (tags r) = Some t →
  registry_ok (reg1 ++ (name, i) :: reg2) = true →
  ∃ pts w' p,
    collect r wall (reg1 ++ (name, i) :: reg2) w = Done pts w' ∧
    emitted r wall reg1 name i w pts [p] ∧
    p = mkPoint (measurement r) (tags r) {[ key := v ]} (timestamp r wall) ∧
    tag_set (heap w') p = Some t.
Proof.
  intros Hf Ht Hok.
  destruct (collect_total r wall _ w t Ht Hok) as (pts & w' & Hc).
  destruct (collect_entry _ _ _ _ _ _ _ _ _ _ Ht Hc)
    as (pts1 & new & pts2 & w1 & w2 & H1 & H2 & -> & Hx1 & Hx2 & Hx3).
  destruct (visit_cases _ _ _ _ _ _ _ _ _ (extends_deref _ _ _ _ Hx1 Ht) H2)
    as [(_ & _ & Hnew)|(key' & fl & kvs & Hexp & _)].
  - rewrite Hf in Hnew. apply app_inv_head in Hnew as ->.
    eexists _, w', _. split; [done|]. split; [by exists pts1, pts2, w1, w2|].
    split; [done|]. unfold tag_set. simpl. eauto using extends_deref.
  - by destruct i.
Qed.

(** The points of an entry of a bucketed kind, label by label. *)
Lemma collect_labelled r wall reg1 name i reg2 w t key fl :
  expansion name i = Some (key, fl) →
  deref (heap w) (tags r) = Some t →
  registry_ok (reg1 ++ (name, i) :: reg2) = true →
  ∃ pts w' new,
    collect r wall (reg1 ++ (name, i) :: reg2) w = Done pts w' ∧
    emitted r wall reg1 name i w pts new ∧
    length new = length fl ∧
    ∀ k v, (k, v) ∈ fl → labelled (heap w') new key k v.
Proof.
  intros Hexp Ht Hok.
  destruct (collect_total r wall _ w t Ht Hok) as (pts & w' & Hc).
  destruct (collect_bucketed_view _ _ _ _ _ _ _ _ _ _ _ _ Hexp Ht Hc)
    as (new & Hem & Hview).
  pose proof (expansion_NoDup _ _ _ _ Hexp) as Hnd.
  exists pts, w', new. split_and!; [done..| |].
  - apply Permutation_length in Hview. by rewrite !length_fmap in Hview.
  - intros k v Hin. by eapply labelled_intro.
Qed.

(** X3: for a Gauge named [name] with value [v] the tick emits exactly one
    point, with the single field <name>.gauge = v as an integer, on the
    base tags. *)
Theorem gauge_point r wall reg1 name v reg2 w t :
  deref (heap w) (tags r) = Some t →
  registry_ok (reg1 ++ (name, Gauge v) :: reg2) = true →
  ∃ pts w' p,
    collect r wall (reg1 ++ (name, Gauge v) :: reg2) w = Done pts w' ∧
    emitted r wall reg1 name (Gauge v) w pts [p] ∧
    Fields p = {[ name +:+ ".gauge" := Int64 v ]} ∧
    Tags p = tags r ∧
    tag_set (heap w') p = Some t.
Proof.
  intros Ht Hok.
  destruct (collect_plain r wall reg1 name (Gauge v) reg2 w t _ _ eq_refl Ht Hok)
    as (pts & w' & p & Hc & Hem & -> & Htag).
  eexists pts, w', _. split_and!; [done|exact Hem|done..].
Qed.

(** X4: for a GaugeFloat64 named [name] with value [v] the tick emits
    exactly one point, with the single field <name>.gauge = v as a float,
    on the base tags: the field key is that of an integer Gauge. *)
Theorem gauge_float_point r wall reg1 name v reg2 w t :
  deref (heap w) (tags r) = Some t →
  registry_ok (reg1 ++ (name, GaugeFloat64 v) :: reg2) = true →
  ∃ pts w' p,
    collect r wall (reg1 ++ (name, GaugeFloat64 v) :: reg2) w = Done pts w' ∧
    emitted r wall reg1 name (GaugeFloat64 v) w pts [p] ∧
    Fields p = {[ name +:+ ".gauge" := Float64 v ]} ∧
    Tags p = tags r ∧
    tag_set (heap w') p = Some t.
Proof.
  intros Ht Hok.
  destruct (collect_plain r wall reg1 name (GaugeFloat64 v) reg2 w t _ _ eq_refl Ht Hok)
    as (pts & w' & p & Hc & Hem & -> & Htag).
  eexists pts, w', _. split_and!; [done|exact Hem|done..].
Qed.

(** X5: for a Meter the tick emits four points, all with the field key
    <name>.meter: the one tagged bucket=count holds the count as a float,
    the ones tagged m1, m5 and mean hold the 1-minute, 5-minute and mean
    rates. *)
Theorem meter_points r wall reg1 name ms reg2 w t :
  deref (heap w) (tags r) = Some t →
  registry_ok (reg1 ++ (name, Meter ms) :: reg2) = true →
  ∃ pts w' new,
    collect r wall (reg1 ++ (name, Meter ms) :: reg2) w = Done pts w' ∧
    emitted r wall reg1 name (Meter ms) w pts new ∧
    length new = 4 ∧
    labelled (heap w') new (name +:+ ".meter") "count" (float64_of_int64 (m_Count ms)) ∧
    labelled (heap w') new (name +:+ ".meter") "m1" (m_Rate1 ms) ∧
    labelled (heap w') new (name +:+ ".meter") "m5" (m_Rate5 ms) ∧
    labelled (heap w') new (name +:+ ".meter") "mean" (m_RateMean ms).
Proof.
  intros Ht Hok.
  destruct (collect_labelled r wall reg1 name (Meter ms) reg2 w t _ _ eq_refl Ht Hok)
    as (pts & w' & new & Hc & Hem & Hlen & Hlab).
  exists pts, w', new. split_and!; [done..| | | |];
    apply Hlab; unfold meter_fields; set_solver.
Qed.

(** X6: for a Histogram the tick emits ten points with the field key
    <name>.histogram; the ones tagged bucket=count, max, mean, min, stddev
    and variance hold those statistics of the snapshot, count, max and min
    converted to floats. *)
Theorem histogram_statistics r wall reg1 name ms reg2 w t :
  deref (heap w) (tags r) = Some t →
  registry_ok (reg1 ++ (name, Histogram ms) :: reg2) = true →
  ∃ pts w' new,
    collect r wall (reg1 ++ (name, Histogram ms) :: reg2) w = Done pts w' ∧
    emitted r wall reg1 name (Histogram ms) w pts new ∧
    length new = 10 ∧
    labelled (heap w') new (name +:+ ".histogram") "count" (float64_of_int64 (h_Count ms)) ∧
    labelled (heap w') new (name +:+ ".histogram") "max" (float64_of_int64 (h_Max ms)) ∧
    labelled (heap w') new (name +:+ ".histogram") "mean" (h_Mean ms) ∧
    labelled (heap w') new (name +:+ ".histogram") "min" (float64_of_int64 (h_Min ms)) ∧
    labelled (heap w') new (name +:+ ".histogram") "stddev" (h_StdDev ms) ∧
    labelled (heap w') new (name +:+ ".histogram") "variance" (h_Variance ms).
Proof.
  intros Ht Hok. pose proof (registry_ok_entry _ _ _ _ Hok) as Hi.
  unfold enough_percentiles in Hi. simpl in Hi.
  destruct (h_Percentiles ms quantiles) as [|a [|b [|c [|d rest]]]] eqn:Hps; try done.
  assert (expansion name (Histogram ms)
          = Some (name +:+ ".histogram", histogram_fields ms a b c d)) as Hexp.
  { simpl. by rewrite Hps. }
  destruct (collect_labelled r wall reg1 name _ reg2 w t _ _ Hexp Ht Hok)
    as (pts & w' & new & Hc & Hem & Hlen & Hlab).
  exists pts, w', new. split_and!; [done..| | | | | |];
    apply Hlab; unfold histogram_fields; set_solver.
Qed.

(** X7: for a Timer the tick emits thirteen points with the field key
    <name>.timer; the ones tagged bucket=m1, m5 and meanrate hold the
    1-minute, 5-minute and mean rates, and the one tagged bucket=mean holds
    the mean duration, not the mean rate; count, max, min, stddev and
    variance are as for a Histogram. *)
Theorem timer_statistics r wall reg1 name ms reg2 w t :
  deref (heap w) (tags r) = Some t →
  registry_ok (reg1 ++ (name, Timer ms) :: reg2) = true →
  ∃ pts w' new,
    collect r wall (reg1 ++ (name, Timer ms) :: reg2) w = Done pts w' ∧
    emitted r wall reg1 name (Timer ms) w pts new ∧
    length new = 13 ∧
    labelled (heap w') new (name +:+ ".timer") "count" (float64_of_int64 (t_Count ms)) ∧
    labelled (heap w') new (name +:+ ".timer") "max" (float64_of_int64 (t_Max ms)) ∧
    labelled (heap w') new (name +:+ ".timer") "mean" (t_Mean ms) ∧
    labelled (heap w') new (name +:+ ".timer") "min" (float64_of_int64 (t_Min ms)) ∧
    labelled (heap w') new (name +:+ ".timer") "stddev" (t_StdDev ms) ∧
    labelled (heap w') new (name +:+ ".timer") "variance" (t_Variance ms) ∧
    labelled (heap w') new (name +:+ ".timer") "m1" (t_Rate1 ms) ∧
    labelled (heap w') new (name +:+ ".timer") "m5" (t_Rate5 ms) ∧
    labelled (heap w') new (name +:+ ".timer") "meanrate" (t_RateMean ms).
Proof.
  intros Ht Hok. pose proof (registry_ok_entry _ _ _ _ Hok) as Hi.
  unfold enough_percentiles in Hi. simpl in Hi.
  destruct (t_Percentiles ms quantiles) as [|a [|b [|c [|d rest]]]] eqn:Hps; try done.
  assert (expansion name (Timer ms)
          = Some (name +:+ ".timer", timer_fields ms a b c d)) as Hexp.
  { simpl. by rewrite Hps. }
  destruct (collect_labelled r wall reg1 name _ reg2 w t _ _ Hexp Ht Hok)
    as (pts & w' & new & Hc & Hem & Hlen & Hlab).
  exists pts, w', new. split_and!; [done..| | | | | | | | |];
    apply Hlab; unfold timer_fields; set_solver.
Qed.

(** X8: an entry of a kind that [send] does not know is skipped: the tick
    gives the points, and leaves the world, that it gives without the
    entry. *)
Theorem unknown_kind_skipped r wall reg1 name reg2 w :
  collect r wall (reg1 ++ (name, Other) :: reg2) w = collect r wall (reg1 ++ reg2) w.
Proof.
  unfold collect. rewrite !Each_app. unfold bind.
  by destruct (Each reg1 _ [] w).
Qed.

End Kinds.

(** A Gauge, a Counter and a Meter; a float Gauge; a Histogram; a Timer. *)
Lemma gauge_point_witness :
  deref (heap Sample.w0) (tags Sample.r0) = Some Sample.base_tags ∧
  registry_ok ([] ++ ("heap.used", Gauge 1024)
                 :: [("requests", Counter 12); ("rate", Meter Sample.meter)]) = true ∧
  ∃ pts w' p,
    collect Sample.r0 1234%Z
      ([] ++ ("heap.used", Gauge 1024)
         :: [("requests", Counter 12); ("rate", Meter Sample.meter)]) Sample.w0
      = Done pts w' ∧
    emitted Sample.r0 1234%Z [] "heap.used" (Gauge 1024) Sample.w0 pts [p] ∧
    Fields p = {[ "heap.used.gauge" := Int64 1024 ]} ∧
    Tags p = tags Sample.r0 ∧
    tag_set (heap w') p = Some Sample.base_tags.
Proof.
  split; [reflexivity|]. split; [reflexivity|].
  apply (gauge_point (E := Sample.env None) Sample.r0 1234%Z [] "heap.used"
           1024%Z [("requests", Counter 12); ("rate", Meter Sample.meter)]
           Sample.w0 Sample.base_tags); reflexivity.
Defined.

Lemma gauge_float_point_witness :
  deref (heap Sample.w0) (tags Sample.r0) = Some Sample.base_tags ∧
  registry_ok ([("heap.used", Gauge 1024); ("requests", Counter 12)]
                 ++ ("up", GaugeFloat64 1) :: []) = true ∧
  ∃ pts w' p,
    collect Sample.r0 1234%Z
      ([("heap.used", Gauge 1024); ("requests", Counter 12)]
         ++ ("up", GaugeFloat64 1) :: []) Sample.w0 = Done pts w' ∧
    emitted Sample.r0 1234%Z [("heap.used", Gauge 1024); ("requests", Counter 12)]
      "up" (GaugeFloat64 1) Sample.w0 pts [p] ∧
    Fields p = {[ "up.gauge" := Float64 1 ]} ∧
    Tags p = tags Sample.r0 ∧
    tag_set (heap w') p = Some Sample.base_tags.
Proof.
  split; [reflexivity|]. split; [reflexivity|].
  apply (gauge_float_point (E := Sample.env None) Sample.r0 1234%Z
           [("heap.used", Gauge 1024); ("requests", Counter 12)] "up" 1%float []
           Sample.w0 Sample.base_tags); reflexivity.
Defined.

Lemma meter_points_witness :
  deref (heap Sample.w0) (tags Sample.r0) = Some Sample.base_tags ∧
  registry_ok ([("heap.used", Gauge 1024); ("requests", Counter 12)]
                 ++ ("rate", Meter Sample.meter) :: []) = true ∧
  ∃ pts w' new,
    collect Sample.r0 1234%Z
      ([("heap.used", Gauge 1024); ("requests", Counter 12)]
         ++ ("rate", Meter Sample.meter) :: []) Sample.w0 = Done pts w' ∧
    emitted Sample.r0 1234%Z [("heap.used", Gauge 1024); ("requests", Counter 12)]
      "rate" (Meter Sample.meter) Sample.w0 pts new ∧
    length new = 4 ∧
    labelled (heap w') new "rate.meter" "count" 3 ∧
    labelled (heap w') new "rate.meter" "m1" 1.5 ∧
    labelled (heap w') new "rate.meter" "m5" 2.5 ∧
    labelled (heap w') new "rate.meter" "mean" 0.5.
Proof.
  split; [reflexivity|]. split; [reflexivity|].
  apply (meter_points (E := Sample.env None) Sample.r0 1234%Z
           [("heap.used", Gauge 1024); ("requests", Counter 12)] "rate"
           Sample.meter [] Sample.w0 Sample.base_tags); reflexivity.
Defined.

Lemma histogram_statistics_witness :
  deref (heap Sample.w0) (tags Sample.r0) = Some Sample.base_tags ∧
  registry_ok ([("heap.used", Gauge 1024)] ++ ("h", Histogram Sample.histogram)
                 :: [("requests", Counter 12)]) = true ∧
  ∃ pts w' new,
    collect Sample.r0 1234%Z
      ([("heap.used", Gauge 1024)] ++ ("h", Histogram Sample.histogram)
         :: [("requests", Counter 12)]) Sample.w0 = Done pts w' ∧
    emitted Sample.r0 1234%Z [("heap.used", Gauge 1024)] "h"
      (Histogram Sample.histogram) Sample.w0 pts new ∧
    length new = 10 ∧
    labelled (heap w') new "h.histogram" "count" 4 ∧
    labelled (heap w') new "h.histogram" "max" 9 ∧
    labelled (heap w') new "h.histogram" "mean" 5 ∧
    labelled (heap w') new "h.histogram" "min" 1 ∧
    labelled (heap w') new "h.histogram" "stddev" 2 ∧
    labelled (heap w') new "h.histogram" "variance" 4.
Proof.
  split; [reflexivity|]. split; [reflexivity|].
  apply (histogram_statistics (E := Sample.env None) Sample.r0 1234%Z
           [("heap.used", Gauge 1024)] "h" Sample.histogram
           [("requests", Counter 12)] Sample.w0 Sample.base_tags); reflexivity.
Defined.

Lemma timer_statistics_witness :
  deref (heap Sample.w0) (tags Sample.r0) = Some Sample.base_tags ∧
  registry_ok ([("heap.used", Gauge 1024)] ++ ("t", Timer Sample.timer)
                 :: [("requests", Counter 12)]) = true ∧
  ∃ pts w' new,
    collect Sample.r0 1234%Z
      ([("heap.used", Gauge 1024)] ++ ("t", Timer Sample.timer)
         :: [("requests", Counter 12)]) Sample.w0 = Done pts w' ∧
    emitted Sample.r0 1234%Z [("heap.used", Gauge 1024)] "t"
      (Timer Sample.timer) Sample.w0 pts new ∧
    length new = 13 ∧
    labelled (heap w') new "t.timer" "count" 4 ∧
    labelled (heap w') new "t.timer" "max" 9 ∧
    labelled (heap w') new "t.timer" "mean" 5 ∧
    labelled (heap w') new "t.timer" "min" 1 ∧
    labelled (heap w') new "t.timer" "stddev" 2 ∧
    labelled (heap w') new "t.timer" "variance" 4 ∧
    labelled (heap w') new "t.timer" "m1" 1.5 ∧
    labelled (heap w') new "t.timer" "m5" 2.5 ∧
    labelled (heap w') new "t.timer" "meanrate" 0.5.
Proof.
  split; [reflexivity|]. split; [reflexivity|].
  apply (timer_statistics (E := Sample.env None) Sample.r0 1234%Z
           [("heap.used", Gauge 1024)] "t" Sample.timer
           [("requests", Counter 12)] Sample.w0 Sample.base_tags); reflexivity.
Defined.

(** ** Counting points and tag maps *)

Section Counting.
Context `{E : Env}.

Lemma expansion_length name i key fl :
  expansion name i = Some (key, fl) →
  bucketed i = true ∧ length fl = points_per_kind i.
Proof.
  destruct i as [| | |ms|ms|ms|]; simpl; try done.
  - destruct (h_Percentiles ms quantiles) as [|a [|b [|c [|d ?]]]]; try done.
    by intros [= _ <-].
  - by intros [= _ <-].
  - destruct (t_Percentiles ms quantiles) as [|a [|b [|c [|d ?]]]]; try done.
    by intros [= _ <-].
Qed.

Lemma bucket_points_Tags m key now base kvs :
  Tags <$> bucket_points m key now base kvs = Some <$> seq base (length kvs).
Proof.
  apply list_eq. intros j. unfold bucket_points.
  rewrite !list_lookup_fmap, list_lookup_imap.
  destruct (kvs !! j) as [kv|] eqn:Hj; simpl.
  - apply lookup_lt_Some in Hj. by rewrite lookup_seq_lt.
  - apply lookup_ge_None in Hj. by rewrite lookup_seq_ge.
Qed.

Lemma own_tags_app r pts1 pts2 :
  own_tags r (pts1 ++ pts2) = own_tags r pts1 ++ own_tags r pts2.
Proof. unfold own_tags. by rewrite fmap_app, filter_app. Qed.

(** Addresses beyond the store are not the base tag map. *)
Lemma own_tags_fresh r t h base n :
  deref h (tags r) = Some t → length h ≤ base →
  filter (λ m, m ≠ tags r) (Some <$> seq base n) = Some <$> seq base n.
Proof.
  intros Ht. revert base. induction n as [|n IH]; intros base Hb; [done|].
  simpl. rewrite filter_cons_True.
  - f_equal. apply IH. lia.
  - intros Heq. rewrite <- Heq in Ht. simpl in Ht.
    apply lookup_lt_Some in Ht. lia.
Qed.

Lemma visit_count r now pts name i w pts' w' t :
  deref (heap w) (tags r) = Some t →
  visit r now pts name i w = Done pts' w' →
  length pts' = length pts + points_per_kind i ∧
  own_tags r pts' =
    own_tags r pts ++ (Some <$> seq (length (heap w)) (maps_per_kind i)) ∧
  length (heap w') = length (heap w) + maps_per_kind i.
Proof.
  intros Ht Hv. unfold maps_per_kind.
  destruct (visit_cases _ _ _ _ _ _ _ _ _ Ht Hv)
    as [(Hb & -> & ->)|(key & fl & kvs & Hexp & Hp & -> & ->)].
  - rewrite Hb, own_tags_app, length_app. simpl.
    destruct i; try done; simpl; unfold own_tags; simpl;
      rewrite ?filter_cons_False, ?filter_nil by (intros H; by apply H);
      split_and!; (done || lia).
  - destruct (expansion_length _ _ _ _ Hexp) as (Hb & Hfl). rewrite Hb.
    apply Permutation_length in Hp. simpl.
    unfold bucket_maps. rewrite own_tags_app, !length_app, length_fmap.
    unfold bucket_points at 1. rewrite length_imap, Hp, Hfl.
    split_and!; [done| |done]. f_equal.
    unfold own_tags. rewrite bucket_points_Tags, Hp, Hfl.
    by apply (own_tags_fresh r t (heap w)).
Qed.

Lemma Each_count r now reg pts w pts' w' t :
  deref (heap w) (tags r) = Some t →
  Each reg (visit r now) pts w = Done pts' w' →
  length pts' = length pts + sum_list_with (λ e, points_per_kind e.2) reg ∧
  own_tags r pts' =
    own_tags r pts
      ++ (Some <$> seq (length (heap w)) (sum_list_with (λ e, maps_per_kind e.2) reg)) ∧
  length (heap w') = length (heap w) + sum_list_with (λ e, maps_per_kind e.2) reg.
Proof.
  revert pts w. induction reg as [|[name i] reg IH]; intros pts w Ht He.
  - injection He as <- <-. simpl. rewrite app_nil_r. split_and!; [lia|done|lia].
  - simpl in He. unfold bind in He.
    destruct (visit r now pts name i w) as [pts1 w1| |] eqn:Hv; [|done..].
    destruct (visit_frame _ _ _ _ _ _ _ _ _ Ht Hv) as (_ & _ & Hx & _).
    destruct (IH pts1 w1 (extends_deref _ _ _ _ Hx Ht) He) as (Hlen & Hown & Hheap).
    destruct (visit_count _ _ _ _ _ _ _ _ _ Ht Hv) as (Hlen1 & Hown1 & Hheap1).
    rewrite Hlen, Hown, Hheap, Hlen1, Hown1, Hheap1. simpl.
    split_and!; [lia| |lia].
    rewrite <- (assoc_L (++)). f_equal. by rewrite seq_app, fmap_app.
Qed.

(** X9: a tick gives each metric the number of points of its kind: one
    for a Counter, Gauge or GaugeFloat64, ten for a Histogram, four for a
    Meter, thirteen for a Timer, none for any other kind. *)
Theorem points_per_tick r wall reg w t :
  deref (heap w) (tags r) = Some t →
  registry_ok reg = true →
  ∃ pts w',
    collect r wall reg w = Done pts w' ∧
    length pts = sum_list_with (λ e, points_per_kind e.2) reg.
Proof.
  intros Ht Hok. destruct (collect_total r wall reg w t Ht Hok) as (pts & w' & Hc).
  exists pts, w'. split; [done|].
  by destruct (Each_count _ _ _ _ _ _ _ _ Ht Hc) as (-> & _).
Qed.

(** X10: the tag maps of the points of the bucketed kinds are the map
    objects the tick allocates, one per point and in the order of the
    points: no two of these points share a tag map, and none has the base
    tag map. *)
Theorem own_tag_maps r wall reg w t :
  deref (heap w) (tags r) = Some t →
  registry_ok reg = true →
  ∃ pts w',
    collect r wall reg w = Done pts w' ∧
    own_tags r pts =
      Some <$> seq (length (heap w)) (length (heap w') - length (heap w)) ∧
    NoDup (own_tags r pts) ∧
    length (own_tags r pts) = sum_list_with (λ e, maps_per_kind e.2) reg.
Proof.
  intros Ht Hok. destruct (collect_total r wall reg w t Ht Hok) as (pts & w' & Hc).
  exists pts, w'. split; [done|].
  destruct (Each_count _ _ _ _ _ _ _ _ Ht Hc) as (_ & Hown & Hheap).
  rewrite Hown, Hheap. simpl.
  replace (length (heap w) + sum_list_with (λ e, maps_per_kind e.2) reg
           - length (heap w))
    with (sum_list_with (λ e, maps_per_kind e.2) reg) by lia.
  split_and!; [done| |by rewrite length_fmap, length_seq].
  apply (NoDup_fmap_2 Some), NoDup_seq.
Qed.

End Counting.

Lemma points_per_tick_witness :
  deref (heap Sample.w0) (tags Sample.r0) = Some Sample.base_tags ∧
  registry_ok Sample.registry = true ∧
  ∃ pts w',
    collect Sample.r0 1234%Z Sample.registry Sample.w0 = Done pts w' ∧
    length pts = 1 + (1 + (4 + 0)).
Proof.
  split; [reflexivity|]. split; [reflexivity|].
  apply (points_per_tick (E := Sample.env None) Sample.r0 1234%Z Sample.registry
           Sample.w0 Sample.base_tags); reflexivity.
Defined.

Lemma own_tag_maps_witness :
  deref (heap Sample.w0) (tags Sample.r0) = Some Sample.base_tags ∧
  registry_ok Sample.registry = true ∧
  ∃ pts w',
    collect Sample.r0 1234%Z Sample.registry Sample.w0 = Done pts w' ∧
    own_tags Sample.r0 pts = Some <$> seq 1 (length (heap w') - 1) ∧
    NoDup (own_tags Sample.r0 pts) ∧
    length (own_tags Sample.r0 pts) = 4.
Proof.
  split; [reflexivity|]. split; [reflexivity|].
  apply (own_tag_maps (E := Sample.env None) Sample.r0 1234%Z Sample.registry
           Sample.w0 Sample.base_tags); reflexivity.
Defined.

(** ** More on the batched writes *)

Section MoreWrites.
Context `{E : Env}.

Lemma chunks_lookup {A} (n : nat) (l : list A) j :
  0 < n → j * n < length l →
  chunks n l !! j = Some (take n (drop (j * n) l)).
Proof.
  intros Hn. revert l. induction j as [|j IH]; intros l Hj.
  - rewrite chunks_cons; [done..|]. intros ->. simpl in Hj. lia.
  - rewrite chunks_cons; [|done|]. 2:{ intros ->. simpl in Hj. lia. }
    simpl. rewrite IH, drop_drop; [done|]. rewrite length_drop. simpl in Hj. lia.
Qed.

Lemma chunks_lookup_lt {A} (n : nat) (l : list A) j b :
  0 < n → chunks n l !! j = Some b → j * n < length l.
Proof.
  intros Hn Hb. apply lookup_lt_Some in Hb.
  rewrite chunks_length in Hb by done.
  pose proof (ceil_div_ceiling (length l) n Hn). nia.
Qed.

(** The batches are chunks of a size that is positive when there are
    points. *)
Lemma batches_chunks r (pts : list Point) :
  ∃ n, batches r pts = chunks n pts ∧ (pts ≠ [] → 0 < n) ∧
       ((0 < maxBatchSize r)%Z → n = Z.to_nat (maxBatchSize r)).
Proof.
  unfold batches. eexists. split; [done|].
  destruct (Z.leb_spec (maxBatchSize r) 0); (split; [|lia]).
  - unfold len. destruct pts; [done|simpl; lia].
  - lia.
Qed.

Lemma batches_concat r (pts : list Point) : concat (batches r pts) = pts.
Proof.
  destruct (batches_chunks r pts) as (n & -> & Hn & _).
  destruct pts as [|p pts]; [done|]. apply chunks_concat. by apply Hn.
Qed.

Lemma batches_nonempty r (pts : list Point) : Forall (λ b, b ≠ []) (batches r pts).
Proof.
  destruct (batches_chunks r pts) as (n & -> & Hn & _).
  destruct pts as [|p pts]; [by constructor|].
  eapply Forall_impl; [apply chunks_Forall; by apply Hn|].
  intros b Hb ->. simpl in Hb. lia.
Qed.

(** The two ways [send] ends once the points of the tick are there. *)
Lemma send_cases r c wall reg w t pts w1 :
  client r = Some c →
  deref (heap w) (tags r) = Some t →
  collect r wall reg w = Done pts w1 →
  (maxBatchSize r ≤ max_int)%Z → (len pts ≤ 2 ^ 62)%Z →
  ∃ res w' k,
    send r wall reg w = Done res w' ∧
    heap w' = heap w1 ∧
    trace w' = trace w
                 ++ (write_event c (database r) None <$> take (k - 1) (batches r pts))
                 ++ match res with
                    | Some e =>
                        from_option (λ b, [write_event c (database r) (Some e) b]) []
                          (batches r pts !! (k - 1))
                    | None => from_option (λ b, [write_event c (database r) None b]) []
                                (batches r pts !! (k - 1))
                    end ∧
    written (trace w') = written (trace w) ++ take k (batches r pts) ∧
    k ≤ length (batches r pts) ∧
    (res = None → k = length (batches r pts)) ∧
    (batches r pts ≠ [] → 0 < k).
Proof.
  intros Hc Ht Hcol Hmax Hlen.
  destruct (send_collect r wall reg w t pts w1 Ht Hcol Hmax Hlen) as (-> & Hrem & Htr).
  rewrite <- Htr.
  destruct (first_failure_cases c (database r) (batches r pts) (remote w1))
    as [Hok|(k & b & e & Hk & He & Hlt)].
  - rewrite (write_all_ok r c _ w1 Hc Hok).
    eexists None, _, (length (batches r pts)). split; [done|]. simpl.
    split_and!; [done| | |done|done|].
    + destruct (batches r pts) as [|b0 bs] eqn:Hbs using rev_ind; [by simpl|].
      clear IHbs. rewrite length_app. simpl.
      replace (length bs + 1 - 1) with (length bs) by lia.
      rewrite take_app_length, lookup_app_r, Nat.sub_diag by lia. simpl.
      by rewrite fmap_app.
    + by rewrite written_app, written_write_events, firstn_all.
    + destruct (batches r pts); [done|simpl; lia].
  - rewrite (write_all_first_failure r c _ w1 k e b Hc Hk He Hlt).
    eexists (Some e), _, (S k). split; [done|]. simpl.
    rewrite Nat.sub_0_r, Hk. simpl. apply lookup_lt_Some in Hk as Hk'.
    split_and!; [done|done| |lia|done|lia].
    rewrite !written_app, written_write_events. simpl.
    f_equal. by rewrite (take_S_r _ _ b).
Qed.

(** X11: when a Histogram or Timer snapshot returns fewer than four
    percentiles, [send] panics on the index into them, before any write
    and without any call to the client or log. *)
Theorem short_percentiles_panic r wall reg1 name i reg2 w t :
  deref (heap w) (tags r) = Some t →
  registry_ok reg1 = true →
  enough_percentiles i = false →
  ∃ w1,
    send r wall (reg1 ++ (name, i) :: reg2) w = Panic "index out of range" w1 ∧
    trace w1 = trace w ∧ remote w1 = remote w.
Proof.
  intros Ht Hok Hi.
  destruct (collect_total r wall reg1 w t Ht Hok) as (pts1 & w1 & H1).
  destruct (Each_frame _ _ _ _ _ _ _ _ Ht H1) as (_ & _ & (_ & Hrem & Htr) & _).
  exists w1. split; [|done].
  unfold send, collect, bind in *. rewrite Each_app. unfold bind. rewrite H1.
  simpl. unfold bind. rewrite visit_short_percentiles; [done| |].
  - by destruct i.
  - unfold enough_percentiles in Hi. destruct i as [| | |ms|ms|ms|]; simpl in *; try done.
    + by destruct (h_Percentiles ms quantiles) as [|? [|? [|? [|? ?]]]].
    + by destruct (t_Percentiles ms quantiles) as [|? [|? [|? [|? ?]]]].
Qed.

(** X12: on a registry that is empty, or holds only metrics of kinds
    [send] does not know, [send] returns [nil] and does nothing: no write,
    whatever [maxBatchSize] is, and no use of the client, which may be nil. *)
Theorem nothing_to_send r wall reg w :
  Forall (λ e, e.2 = Other) reg →
  send r wall reg w = Done None w.
Proof.
  intros Hreg.
  assert (collect r wall reg w = Done [] w) as Hc.
  { unfold collect. induction Hreg as [|[name i] reg Hi _ IH]; [done|].
    simpl in Hi. subst i. simpl. by unfold bind. }
  unfold send, bind. rewrite Hc. unfold write_batches.
  by destruct (maxBatchSize r <=? 0)%Z.
Qed.

(** X13: with a [maxBatchSize] of at least the number of points, [send]
    makes one write, of a batch with all the points. *)
Theorem large_batch_size_one_write r c wall reg w t pts w1 :
  client r = Some c →
  deref (heap w) (tags r) = Some t →
  collect r wall reg w = Done pts w1 →
  pts ≠ [] →
  (len pts ≤ maxBatchSize r ≤ max_int)%Z → (len pts ≤ 2 ^ 62)%Z →
  ∃ res w',
    send r wall reg w = Done res w' ∧
    written (trace w') = written (trace w) ++ [pts].
Proof.
  intros Hc Ht Hcol Hne HB Hlen.
  destruct (send_cases r c wall reg w t pts w1 Hc Ht Hcol ltac:(lia) Hlen)
    as (res & w' & k & Hs & _ & _ & Hw & Hk & _ & Hpos).
  assert (batches r pts = [pts]) as Hbs.
  { unfold batches, len in *.
    assert (0 < length pts) by (destruct pts; [done|simpl; lia]).
    rewrite (proj2 (Z.leb_gt _ _)) by lia. apply chunks_all; [lia|lia|done]. }
  rewrite Hbs in *. simpl in Hk. specialize (Hpos ltac:(done)).
  exists res, w'. split; [done|]. rewrite Hw.
  by replace k with 1 by lia.
Qed.

(** X14: with [maxBatchSize = B > 0], the write number [j] of a tick (from
    0) carries the points from index [j * B] up to, and without, index
    [(j + 1) * B], or up to the last point. *)
Theorem write_carries_slice r c wall reg w t pts w1 :
  (0 < maxBatchSize r)%Z →
  client r = Some c →
  deref (heap w) (tags r) = Some t →
  collect r wall reg w = Done pts w1 →
  (maxBatchSize r ≤ max_int)%Z → (len pts ≤ 2 ^ 62)%Z →
  ∃ res w' ws,
    send r wall reg w = Done res w' ∧
    written (trace w') = written (trace w) ++ ws ∧
    ∀ j b, ws !! j = Some b →
      j * Z.to_nat (maxBatchSize r) < length pts ∧
      b = take (Z.to_nat (maxBatchSize r))
            (drop (j * Z.to_nat (maxBatchSize r)) pts).
Proof.
  intros HB Hc Ht Hcol Hmax Hlen.
  destruct (send_cases r c wall reg w t pts w1 Hc Ht Hcol Hmax Hlen)
    as (res & w' & k & Hs & _ & _ & Hw & _).
  exists res, w', (take k (batches r pts)). split_and!; [done..|].
  intros j b Hj. apply lookup_take_Some in Hj as [Hj _].
  destruct (batches_chunks r pts) as (n & Hbs & _ & Hn). rewrite Hbs in Hj.
  rewrite <- (Hn HB).
  assert (0 < n) as Hpos by (rewrite (Hn HB); lia).
  pose proof (chunks_lookup_lt n pts j b Hpos Hj) as Hlt.
  split; [done|]. rewrite (chunks_lookup n pts j Hpos Hlt) in Hj. by injection Hj.
Qed.

(** X15: whatever [maxBatchSize] is, the points [send] writes are, batch
    after batch, the first points of the tick in their order, each once;
    when [send] returns [nil] they are all the points of the tick. *)
Theorem written_points_in_order r c wall reg w t pts w1 :
  client r = Some c →
  deref (heap w) (tags r) = Some t →
  collect r wall reg w = Done pts w1 →
  (maxBatchSize r ≤ max_int)%Z → (len pts ≤ 2 ^ 62)%Z →
  ∃ res w' ws,
    send r wall reg w = Done res w' ∧
    written (trace w') = written (trace w) ++ ws ∧
    concat ws `prefix_of` pts ∧
    (res = None → concat ws = pts).
Proof.
  intros Hc Ht Hcol Hmax Hlen.
  destruct (send_cases r c wall reg w t pts w1 Hc Ht Hcol Hmax Hlen)
    as (res & w' & k & Hs & _ & _ & Hw & _ & Hall & _).
  exists res, w', (take k (batches r pts)). split_and!; [done..| |].
  - exists (concat (drop k (batches r pts))).
    by rewrite <- concat_app, take_drop, batches_concat.
  - intros ->. rewrite (Hall eq_refl), firstn_all. apply batches_concat.
Qed.

(** X16: the calls [send] makes are writes and nothing else: each through
    the reporter's client, to the reporter's database, of a batch that is
    not empty; the map objects of the store are left as the translation
    left them. *)
Theorem send_only_writes r c wall reg w t pts w1 :
  client r = Some c →
  deref (heap w) (tags r) = Some t →
  collect r wall reg w = Done pts w1 →
  (maxBatchSize r ≤ max_int)%Z → (len pts ≤ 2 ^ 62)%Z →
  ∃ res w' evs,
    send r wall reg w = Done res w' ∧
    trace w' = trace w ++ evs ∧
    Forall (is_write c (database r)) evs ∧
    heap w' = heap w1.
Proof.
  intros Hc Ht Hcol Hmax Hlen.
  destruct (send_cases r c wall reg w t pts w1 Hc Ht Hcol Hmax Hlen)
    as (res & w' & k & Hs & Hheap & Htr & _).
  eexists res, w', _. split_and!; [done|exact Htr| |done].
  pose proof (batches_nonempty r pts) as Hne. rewrite Forall_forall in Hne.
  apply Forall_app. split.
  - apply Forall_fmap, Forall_forall. intros b Hb.
    exists b, None. split; [done|].
    apply Hne. apply elem_of_take in Hb as (j & Hj & _).
    by eapply list_elem_of_lookup_2.
  - assert (∀ err, Forall (is_write c (database r))
              (from_option (λ b, [write_event c (database r) err b]) []
                 (batches r pts !! (k - 1)))) as Hlast.
    { intros err. destruct (batches r pts !! (k - 1)) as [b|] eqn:Hb; [|done].
      constructor; [|done]. exists b, err. split; [done|].
      apply Hne. by eapply list_elem_of_lookup_2. }
    destruct res; apply Hlast.
Qed.

End MoreWrites.

Lemma short_percentiles_panic_witness :
  deref (heap Sample.w0) (tags Sample.r0) = Some Sample.base_tags ∧
  registry_ok [("heap.used", Gauge 1024)] = true ∧
  enough_percentiles (Histogram Cases.short_histogram) = false ∧
  ∃ w1,
    send Sample.r0 1234%Z
      ([("heap.used", Gauge 1024)] ++ ("h", Histogram Cases.short_histogram)
         :: [("requests", Counter 12)]) Sample.w0
      = Panic "index out of range" w1 ∧
    trace w1 = trace Sample.w0 ∧ remote w1 = remote Sample.w0.
Proof.
  split; [reflexivity|]. split; [reflexivity|]. split; [reflexivity|].
  apply (short_percentiles_panic (E := Sample.env None) Sample.r0 1234%Z
           [("heap.used", Gauge 1024)] "h" (Histogram Cases.short_histogram)
           [("requests", Counter 12)] Sample.w0 Sample.base_tags); reflexivity.
Defined.

Lemma nothing_to_send_witness :
  Forall (λ e : string * Metric, e.2 = Other) [("check", Other); ("ewma", Other)] ∧
  send (Sample.r2 Sample.first_fails) 1234%Z [("check", Other); ("ewma", Other)]
    (Sample.world Sample.first_fails)
    = Done None (Sample.world Sample.first_fails).
Proof.
  split; [by repeat constructor|].
  apply (nothing_to_send (E := Sample.env Sample.first_fails)).
  by repeat constructor.
Defined.

Lemma large_batch_size_one_write_witness :
  client Cases.r8 = Some (Sample.handle None) ∧
  deref (heap Sample.w0) (tags Cases.r8) = Some Sample.base_tags ∧
  (∃ w1, collect Cases.r8 1234%Z Sample.registry Sample.w0 = Done Sample.points w1) ∧
  Sample.points ≠ [] ∧
  (len Sample.points ≤ maxBatchSize Cases.r8 ≤ max_int)%Z ∧
  (len Sample.points ≤ 2 ^ 62)%Z ∧
  ∃ res w',
    send Cases.r8 1234%Z Sample.registry Sample.w0 = Done res w' ∧
    written (trace w') = written (trace Sample.w0) ++ [Sample.points].
Proof.
  split; [reflexivity|]. split; [reflexivity|].
  split; [eexists; vm_compute; reflexivity|].
  split; [done|]. split; [by vm_compute|]. split; [by vm_compute|].
  eapply (large_batch_size_one_write (E := Sample.env None) Cases.r8
            (Sample.handle None) 1234%Z Sample.registry Sample.w0
            Sample.base_tags Sample.points);
    [reflexivity | reflexivity | vm_compute; reflexivity | done
    | by vm_compute | by vm_compute].
Defined.

Lemma write_carries_slice_witness :
  (0 < maxBatchSize (Sample.r2 None))%Z ∧
  client (Sample.r2 None) = Some (Sample.handle None) ∧
  deref (heap (Sample.world None)) (tags (Sample.r2 None)) = Some Sample.base_tags ∧
  (∃ w1, collect (Sample.r2 None) 1234%Z Sample.registry (Sample.world None)
           = Done Sample.points w1) ∧
  (maxBatchSize (Sample.r2 None) ≤ max_int)%Z ∧
  (len Sample.points ≤ 2 ^ 62)%Z ∧
  ∃ res w' ws,
    send (Sample.r2 None) 1234%Z Sample.registry (Sample.world None) = Done res w' ∧
    written (trace w') = written (trace (Sample.world None)) ++ ws ∧
    ∀ j b, ws !! j = Some b →
      j * 2 < length Sample.points ∧ b = take 2 (drop (j * 2) Sample.points).
Proof.
  split; [reflexivity|]. split; [reflexivity|]. split; [reflexivity|].
  split; [eexists; vm_compute; reflexivity|].
  split; [by vm_compute|]. split; [by vm_compute|].
  eapply (write_carries_slice (E := Sample.env None) (Sample.r2 None)
            (Sample.handle None) 1234%Z Sample.registry (Sample.world None)
            Sample.base_tags Sample.points);
    [reflexivity | reflexivity | reflexivity | vm_compute; reflexivity
    | by vm_compute | by vm_compute].
Defined.

Lemma written_points_in_order_witness :
  client (Sample.r2 Sample.second_fails) = Some (Sample.handle Sample.second_fails) ∧
  deref (heap (Sample.world Sample.second_fails)) (tags (Sample.r2 Sample.second_fails))
    = Some Sample.base_tags ∧
  (∃ w1, collect (Sample.r2 Sample.second_fails) 1234%Z Sample.registry
           (Sample.world Sample.second_fails) = Done Sample.points w1) ∧
  (maxBatchSize (Sample.r2 Sample.second_fails) ≤ max_int)%Z ∧
  (len Sample.points ≤ 2 ^ 62)%Z ∧
  ∃ res w' ws,
    send (Sample.r2 Sample.second_fails) 1234%Z Sample.registry
      (Sample.world Sample.second_fails) = Done res w' ∧
    written (trace w') = written (trace (Sample.world Sample.second_fails)) ++ ws ∧
    concat ws `prefix_of` Sample.points ∧
    (res = None → concat ws = Sample.points).
Proof.
  split; [reflexivity|]. split; [reflexivity|].
  split; [eexists; vm_compute; reflexivity|].
  split; [by vm_compute|]. split; [by vm_compute|].
  eapply (written_points_in_order (E := Sample.env Sample.second_fails)
            (Sample.r2 Sample.second_fails) (Sample.handle Sample.second_fails)
            1234%Z Sample.registry (Sample.world Sample.second_fails)
            Sample.base_tags Sample.points);
    [reflexivity | reflexivity | vm_compute; reflexivity
    | by vm_compute | by vm_compute].
Defined.

Lemma send_only_writes_witness :
  client (Sample.r2 Sample.second_fails) = Some (Sample.handle Sample.second_fails) ∧
  deref (heap (Sample.world Sample.second_fails)) (tags (Sample.r2 Sample.second_fails))
    = Some Sample.base_tags ∧
  ∃ w1,
    collect (Sample.r2 Sample.second_fails) 1234%Z Sample.registry
      (Sample.world Sample.second_fails) = Done Sample.points w1 ∧
    (maxBatchSize (Sample.r2 Sample.second_fails) ≤ max_int)%Z ∧
    (len Sample.points ≤ 2 ^ 62)%Z ∧
    ∃ res w' evs,
      send (Sample.r2 Sample.second_fails) 1234%Z Sample.registry
        (Sample.world Sample.second_fails) = Done res w' ∧
      trace w' = trace (Sample.world Sample.second_fails) ++ evs ∧
      Forall (is_write (Sample.handle Sample.second_fails) "db") evs ∧
      heap w' = heap w1.
Proof.
  split; [reflexivity|]. split; [reflexivity|].
  eexists. split; [vm_compute; reflexivity|].
  split; [by vm_compute|]. split; [by vm_compute|].
  apply (send_only_writes (E := Sample.env Sample.second_fails)
           (Sample.r2 Sample.second_fails) (Sample.handle Sample.second_fails)
           1234%Z Sample.registry (Sample.world Sample.second_fails)
           Sample.base_tags Sample.points);
    [reflexivity | reflexivity | vm_compute; reflexivity
    | by vm_compute | by vm_compute].
Defined.

(** ** Ticks on parts of a registry *)

Section Parts.
Context `{E : Env}.

Lemma range_fields_prefix r now key kvs pre pts w :
  range_fields r now key kvs (pre ++ pts) w =
    prepend pre (range_fields r now key kvs pts w).
Proof.
  revert pts w. induction kvs as [|[k v] kvs IH]; intros pts w; [done|].
  simpl. unfold bind. destruct (bucketTags k (tags r) w) as [tg w1| |]; [|done..].
  rewrite <- (assoc_L (++)). apply IH.
Qed.

(** The function passed to [Each] does not look at the points gathered so
    far: it appends to them. *)
Lemma visit_prefix r now pre pts name i w :
  visit r now (pre ++ pts) name i w = prepend pre (visit r now pts name i w).
Proof.
  destruct i as [| | |ms|ms|ms|]; simpl; unfold ret;
    rewrite <- ?(assoc_L (++)); try done.
  - unfold bind, index.
    destruct (h_Percentiles ms quantiles) as [|a [|b [|c [|d ?]]]]; try done.
    simpl. apply range_fields_prefix.
  - unfold bind. simpl. apply range_fields_prefix.
  - unfold bind, index.
    destruct (t_Percentiles ms quantiles) as [|a [|b [|c [|d ?]]]]; try done.
    simpl. apply range_fields_prefix.
Qed.

Lemma Each_prefix r now reg pre pts w :
  Each reg (visit r now) (pre ++ pts) w = prepend pre (Each reg (visit r now) pts w).
Proof.
  revert pts w. induction reg as [|[name i] reg IH]; intros pts w; [done|].
  simpl. unfold bind. rewrite visit_prefix.
  destruct (visit r now pts name i w) as [pts1 w1| |]; [|done..]. apply IH.
Qed.

(** X17: the points of a tick follow the order in which [Each] visits the
    registry, and the points of an entry do not depend on the points
    before them: a tick on [reg1 ++ reg2] gives the points of a tick on
    [reg1] followed by those of a tick on [reg2] in the world the first
    leaves, and panics where either of them does. *)
Theorem collect_app r wall reg1 reg2 w :
  collect r wall (reg1 ++ reg2) w =
    match collect r wall reg1 w with
    | Done pts1 w1 => prepend pts1 (collect r wall reg2 w1)
    | Panic msg w1 => Panic msg w1
    | OutOfFuel => OutOfFuel
    end.
Proof.
  unfold collect. rewrite Each_app. unfold bind.
  destruct (Each reg1 _ [] w) as [pts1 w1| |]; [|done..].
  rewrite <- (app_nil_r pts1) at 1. apply Each_prefix.
Qed.

End Parts.

(** ** [bucketTags] of a result of [bucketTags] *)

Section Twice.
Context `{E : Env}.

(** X18: [bucketTags] applied to a map that [bucketTags] returned gives a
    third map, with the entries of the first and the later bucket; the map
    it was applied to keeps its own bucket. *)
Theorem bucketTags_twice k1 k2 tags t w :
  deref (heap w) tags = Some t →
  ∃ m1 w1 m2 w2,
    bucketTags k1 tags w = Done m1 w1 ∧
    bucketTags k2 m1 w1 = Done m2 w2 ∧
    m1 ≠ m2 ∧ m1 ≠ tags ∧ m2 ≠ tags ∧
    deref (heap w2) m2 = Some (<["bucket" := k2]> t) ∧
    deref (heap w2) m1 = Some (<["bucket" := k1]> t) ∧
    deref (heap w2) tags = Some t.
Proof.
  intros Ht.
  rewrite (bucketTags_Done k1 tags t w Ht).
  set (w1 := mkWorld (heap w ++ [<["bucket" := k1]> t]) (remote w)
               (S (ranges w)) (trace w)).
  assert (deref (heap w1) (Some (length (heap w))) = Some (<["bucket" := k1]> t))
    as H1.
  { simpl. by apply list_lookup_middle. }
  eexists _, _. eexists _, _. split; [done|].
  rewrite (bucketTags_Done k2 _ (<["bucket" := k1]> t) w1 H1). simpl.
  split; [done|]. rewrite length_app. simpl.
  assert (∀ n, n ≥ length (heap w) → Some n ≠ tags) as Hfresh.
  { intros n Hn <-. simpl in Ht. apply lookup_lt_Some in Ht. lia. }
  split_and!.
  - intros [= ?]. lia.
  - apply Hfresh. lia.
  - apply Hfresh. lia.
  - rewrite lookup_app_r by (rewrite length_app; simpl; lia).
    rewrite length_app. simpl. rewrite Nat.sub_diag. simpl.
    by rewrite insert_insert_eq.
  - by rewrite lookup_app_l_Some with (x := <["bucket" := k1]> t).
  - by do 2 apply deref_app.
Qed.

End Twice.

Lemma bucketTags_twice_witness :
  deref (heap Sample.tagged_world) (Some 0) = Some Sample.tagged ∧
  ∃ m1 w1 m2 w2,
    bucketTags "p50" (Some 0) Sample.tagged_world = Done m1 w1 ∧
    bucketTags "p99" m1 w1 = Done m2 w2 ∧
    m1 ≠ m2 ∧ m1 ≠ Some 0 ∧ m2 ≠ Some 0 ∧
    deref (heap w2) m2 = Some (<["bucket" := "p99"]> Sample.tagged) ∧
    deref (heap w2) m1 = Some (<["bucket" := "p50"]> Sample.tagged) ∧
    deref (heap w2) (Some 0) = Some Sample.tagged.
Proof.
  split; [reflexivity|].
  apply (bucketTags_twice (E := Sample.env None) "p50" "p99" (Some 0)
           Sample.tagged Sample.tagged_world).
  reflexivity.
Defined.

(** ** The instant of a tick *)

Section Instant.
Context `{E : Env}.

(** X19: with the alignment flag set and a positive interval [I], the
    instant the points of a tick carry is a multiple of [I], is not after
    the clock reading and is less than [I] before it; it does not go back
    when the clock goes on, and a clock reading that is such an instant is
    kept. *)
Theorem aligned_instant r wall :
  align r = true →
  (0 < interval r)%Z →
  (timestamp r wall `mod` interval r = 0)%Z ∧
  (wall - interval r < timestamp r wall ≤ wall)%Z ∧
  timestamp r (timestamp r wall) = timestamp r wall ∧
  ∀ wall2, (wall ≤ wall2)%Z → (timestamp r wall ≤ timestamp r wall2)%Z.
Proof.
  intros Ha HI. unfold timestamp. rewrite Ha.
  destruct (Truncate_multiple wall (interval r) HI) as (Hmod & Hlo & Hhi).
  split_and!; [done|lia|done| |].
  - rewrite (Truncate_floor (time.Truncate _ _)) by done.
    pose proof (Z.div_mod (time.Truncate wall (interval r)) (interval r) ltac:(lia)).
    lia.
  - intros wall2 Hle. rewrite !Truncate_floor by done.
    apply Z.mul_le_mono_nonneg_l; [lia|]. by apply Z.div_le_mono.
Qed.

End Instant.

Lemma aligned_instant_witness :
  align (Sample.rep None true 0) = true ∧
  (0 < interval (Sample.rep None true 0))%Z ∧
  (timestamp (Sample.rep None true 0) 1234 `mod` interval (Sample.rep None true 0)
     = 0)%Z ∧
  (1234 - interval (Sample.rep None true 0)
     < timestamp (Sample.rep None true 0) 1234 ≤ 1234)%Z ∧
  timestamp (Sample.rep None true 0) (timestamp (Sample.rep None true 0) 1234%Z)
    = timestamp (Sample.rep None true 0) 1234%Z ∧
  ∀ wall2, (1234 ≤ wall2)%Z →
    (timestamp (Sample.rep None true 0) 1234
       ≤ timestamp (Sample.rep None true 0) wall2)%Z.
Proof.
  split; [reflexivity|]. split; [reflexivity|].
  apply (aligned_instant (E := Sample.env None) (Sample.rep None true 0) 1234%Z);
    reflexivity.
Defined.

(** ** The run loop *)

Section RunLoop.
Context `{E : Env}.

Lemma set_client_set_client c c' (r : reporter) :
  set_client c (set_client c' r) = set_client c r.
Proof. done. Qed.

Lemma set_client_client (r : reporter) : set_client (client r) r = r.
Proof. by destruct r. Qed.

(** One iteration gives back the reporter with, at most, another client. *)
Lemma run_select_reporter r tk w r' w' :
  run_select r tk w = Done r' w' → r' = set_client (client r') r.
Proof.
  destruct tk as [wall reg|]; simpl.
  - destruct (interval r <=? 0)%Z.
    + intros [= <- _]. by rewrite set_client_client.
    + unfold bind. destruct (send r wall reg w) as [[e|] w1| |]; try done;
        intros [= <- _]; by rewrite set_client_client.
  - unfold bind, Ping. destruct (client r) as [c|]; [|done].
    destruct (client_Ping c (remote w)) as [rem [e|]].
    + simpl. unfold makeClient.
      destruct (client_NewClient _ _ _ _) as [c' [e'|]]; simpl;
        by intros [= <- _].
    + intros [= <- _]. by rewrite set_client_client.
Qed.

(** X20: however many ticks the loop of [run] has taken, the reporter is
    the one it started with, but for its client: interval, alignment,
    target, database, batch size, measurement, credentials and base tags
    never change. *)
Theorem run_keeps_configuration r ticks w r' w' :
  run r ticks w = Done r' w' →
  r' = set_client (client r') r.
Proof.
  revert r w. induction ticks as [|tk ticks IH]; intros r w Hrun.
  - injection Hrun as <- <-. by rewrite set_client_client.
  - simpl in Hrun. unfold bind in Hrun.
    destruct (run_select r tk w) as [r1 w1| |] eqn:H1; [|done..].
    rewrite (IH _ _ Hrun) at 1. rewrite (run_select_reporter _ _ _ _ _ H1).
    done.
Qed.

(** X21: a health-check tick makes no write and leaves the store of map
    objects as it is. *)
Theorem ping_tick_no_write r w r' w' :
  run_select r PingTick w = Done r' w' →
  written (trace w') = written (trace w) ∧ heap w' = heap w.
Proof.
  simpl. unfold bind, Ping. destruct (client r) as [c|]; [|done].
  destruct (client_Ping c (remote w)) as [rem [e|]].
  - simpl. unfold makeClient.
    destruct (client_NewClient _ _ _ _) as [c' [e'|]]; simpl;
      intros [= _ <-]; simpl; by rewrite !written_app, !app_nil_r.
  - intros [= _ <-]. simpl. by rewrite written_app, app_nil_r.
Qed.

(** X22: when the ping fails, the tick logs it and calls [NewClient] once,
    and the reporter goes on with what that call returned as its client,
    also when the call returned an error, which is then logged too: the
    client that failed the ping is not kept. *)
Theorem ping_failure_replaces_client r c w rem e c' err' :
  client r = Some c →
  client_Ping c (remote w) = (rem, Some e) →
  client_NewClient (url r) (username r) (password r) (unsafeSsl r) = (c', err') →
  ∃ w',
    run_select r PingTick w = Done (set_client c' r) w' ∧
    client (set_client c' r) = c' ∧
    heap w' = heap w ∧ remote w' = rem ∧
    trace w' =
      trace w
        ++ [EvPing c (Some e);
            EvLog ("got error while sending a ping to InfluxDB, trying to recreate client. err=" +:+ e);
            EvNewClient c' err']
        ++ match err' with
           | Some e' => [EvLog ("unable to make InfluxDB client. err=" +:+ e')]
           | None => []
           end.
Proof.
  intros Hc Hping Hnew. simpl. unfold bind, Ping. rewrite Hc, Hping. simpl.
  unfold makeClient. rewrite Hnew.
  destruct err' as [e'|]; simpl; eexists; (split; [done|]); simpl;
    rewrite <- ?(assoc_L (++)); done.
Qed.

(** X23: a report tick of a reporter with a client always completes and
    leaves the reporter as it is; an error of [send] is logged, once and
    after the writes, and the loop goes on; without error nothing is
    logged. *)
Theorem report_tick r c wall reg w t pts w1 :
  (0 < interval r)%Z →
  client r = Some c →
  deref (heap w) (tags r) = Some t →
  collect r wall reg w = Done pts w1 →
  (maxBatchSize r ≤ max_int)%Z → (len pts ≤ 2 ^ 62)%Z →
  ∃ res ws w',
    send r wall reg w = Done res ws ∧
    run_select r (IntervalTick wall reg) w = Done r w' ∧
    w' = match res with
         | Some e => add_event (EvLog ("unable to send metrics to InfluxDB. err=" +:+ e)) ws
         | None => ws
         end.
Proof.
  intros HI Hc Ht Hcol Hmax Hlen.
  destruct (send_cases r c wall reg w t pts w1 Hc Ht Hcol Hmax Hlen)
    as (res & ws & k & Hs & _).
  simpl. rewrite (proj2 (Z.leb_gt _ _) HI). unfold bind. rewrite Hs.
  exists res, ws. destruct res; by eexists.
Qed.

End RunLoop.

(** ** [InfluxDB] *)

Section Untagged.
Context `{E : Env}.

(** X24: [InfluxDB] starts the reporter [InfluxDBWithTags] starts for a
    new, empty tag map: when the address parses and a client is made, [run]
    is reached with the arguments as configuration, that client, and base
    tags that are a map object of their own, empty. *)
Theorem InfluxDB_fresh_tags d url database measurement username password
    align unsafeSsl maxBatchSize w u c :
  url_Parse url = inl u →
  client_NewClient u username password unsafeSsl = (c, None) →
  ∃ rep w',
    InfluxDB d url database measurement username password align unsafeSsl
      maxBatchSize w = Done (Running rep) w' ∧
    rep = mkReporter d align u database unsafeSsl maxBatchSize measurement
            username password (Some (length (heap w))) c ∧
    heap w !! length (heap w) = None ∧
    deref (heap w') (tags rep) = Some ∅ ∧
    heap w' = heap w ++ [∅] ∧
    trace w' = trace w ++ [EvNewClient c None].
Proof.
  intros Hu Hc. unfold InfluxDB, InfluxDBWithTags, bind, map_make. rewrite Hu.
  unfold bind, makeClient. simpl. rewrite Hc. simpl.
  eexists _, _. split; [done|]. simpl. split_and!; [done| |by apply list_lookup_middle|done..].
  by apply lookup_ge_None_2.
Qed.

(** X25: when the address does not parse, or no client can be made,
    [InfluxDB] logs the failure and returns, as [InfluxDBWithTags] does;
    [run] is reached only when the address parses and [NewClient] returns
    no error. *)
Theorem InfluxDB_failures d url database measurement username password
    align unsafeSsl maxBatchSize w :
  (∀ e, url_Parse url = inr e →
     ∃ w', InfluxDB d url database measurement username password align
             unsafeSsl maxBatchSize w = Done Returned w' ∧
           trace w' = trace w
             ++ [EvLog ("unable to parse InfluxDB url " +:+ url +:+ ". err=" +:+ e)]) ∧
  (∀ u c e, url_Parse url = inl u →
     client_NewClient u username password unsafeSsl = (c, Some e) →
     ∃ w', InfluxDB d url database measurement username password align
             unsafeSsl maxBatchSize w = Done Returned w' ∧
           trace w' = trace w
             ++ [EvNewClient c (Some e);
                 EvLog ("unable to make InfluxDB client. err=" +:+ e)]) ∧
  (∀ rep w',
     InfluxDB d url database measurement username password align unsafeSsl
       maxBatchSize w = Done (Running rep) w' →
     ∃ u, url_Parse url = inl u ∧
          client_NewClient u username password unsafeSsl = (client rep, None)).
Proof.
  unfold InfluxDB, InfluxDBWithTags, bind, map_make. split_and!.
  - intros e ->. by eexists.
  - intros u c e -> Hc. unfold bind, makeClient. simpl. rewrite Hc. simpl.
    eexists. split; [done|]. simpl. by rewrite <- (assoc_L (++)).
  - intros rep w'. destruct (url_Parse url) as [u|e]; [|done].
    unfold bind, makeClient. simpl.
    destruct (client_NewClient u username password unsafeSsl) as [c [e|]] eqn:Hc;
      [done|].
    simpl. intros [= <- _]. by exists u.
Qed.

End Untagged.

(** A report tick, then a health check that fails and cannot reconnect. *)
Lemma run_keeps_configuration_witness :
  ∃ r' w',
    run Cases.offline_rep [IntervalTick 1234%Z Sample.plain_registry; PingTick]
      Cases.offline_world = Done r' w' ∧
    r' = set_client (client r') Cases.offline_rep.
Proof.
  eexists _, _. split; [vm_compute; reflexivity|].
  eapply (run_keeps_configuration (E := Cases.offline) Cases.offline_rep
            [IntervalTick 1234%Z Sample.plain_registry; PingTick]
            Cases.offline_world).
  vm_compute; reflexivity.
Defined.

Lemma ping_tick_no_write_witness :
  ∃ r' w',
    run_select Cases.offline_rep PingTick Cases.offline_world = Done r' w' ∧
    written (trace w') = written (trace Cases.offline_world) ∧
    heap w' = heap Cases.offline_world.
Proof.
  eexists _, _. split; [vm_compute; reflexivity|].
  eapply (ping_tick_no_write (E := Cases.offline) Cases.offline_rep
            Cases.offline_world).
  vm_compute; reflexivity.
Defined.

(** The ping fails and so does [NewClient]: the reporter goes on with the
    nil client [NewClient] returned. *)
Lemma ping_failure_replaces_client_witness :
  client Cases.offline_rep = Some Cases.offline_handle ∧
  client_Ping Cases.offline_handle (remote Cases.offline_world)
    = (Cases.offline_remote, Some "connection refused") ∧
  client_NewClient (url Cases.offline_rep) (username Cases.offline_rep)
    (password Cases.offline_rep) (unsafeSsl Cases.offline_rep)
    = (None, Some "no such user") ∧
  ∃ w',
    run_select Cases.offline_rep PingTick Cases.offline_world
      = Done (set_client None Cases.offline_rep) w' ∧
    client (set_client None Cases.offline_rep) = None ∧
    heap w' = heap Cases.offline_world ∧ remote w' = Cases.offline_remote ∧
    trace w' =
      trace Cases.offline_world
        ++ [EvPing Cases.offline_handle (Some "connection refused");
            EvLog ("got error while sending a ping to InfluxDB, trying to recreate client. err="
                   +:+ "connection refused");
            EvNewClient None (Some "no such user")]
        ++ [EvLog ("unable to make InfluxDB client. err=" +:+ "no such user")].
Proof.
  split; [reflexivity|]. split; [reflexivity|]. split; [reflexivity|].
  apply (ping_failure_replaces_client (E := Cases.offline) Cases.offline_rep
           Cases.offline_handle Cases.offline_world Cases.offline_remote
           "connection refused" None (Some "no such user"));
    reflexivity.
Defined.

Lemma report_tick_witness :
  (0 < interval (Sample.r2 Sample.second_fails))%Z ∧
  client (Sample.r2 Sample.second_fails) = Some (Sample.handle Sample.second_fails) ∧
  deref (heap (Sample.world Sample.second_fails)) (tags (Sample.r2 Sample.second_fails))
    = Some Sample.base_tags ∧
  (∃ w1, collect (Sample.r2 Sample.second_fails) 1234%Z Sample.registry
           (Sample.world Sample.second_fails) = Done Sample.points w1) ∧
  (maxBatchSize (Sample.r2 Sample.second_fails) ≤ max_int)%Z ∧
  (len Sample.points ≤ 2 ^ 62)%Z ∧
  ∃ res ws w',
    send (Sample.r2 Sample.second_fails) 1234%Z Sample.registry
      (Sample.world Sample.second_fails) = Done res ws ∧
    run_select (Sample.r2 Sample.second_fails) (IntervalTick 1234%Z Sample.registry)
      (Sample.world Sample.second_fails) = Done (Sample.r2 Sample.second_fails) w' ∧
    w' = match res with
         | Some e => add_event (EvLog ("unable to send metrics to InfluxDB. err=" +:+ e)) ws
         | None => ws
         end.
Proof.
  split; [reflexivity|]. split; [reflexivity|]. split; [reflexivity|].
  split; [eexists; vm_compute; reflexivity|].
  split; [by vm_compute|]. split; [by vm_compute|].
  eapply (report_tick (E := Sample.env Sample.second_fails)
            (Sample.r2 Sample.second_fails) (Sample.handle Sample.second_fails)
            1234%Z Sample.registry (Sample.world Sample.second_fails)
            Sample.base_tags Sample.points);
    [reflexivity | reflexivity | reflexivity | vm_compute; reflexivity
    | by vm_compute | by vm_compute].
Defined.

Lemma InfluxDB_fresh_tags_witness :
  url_Parse (Env := Sample.env None) "http://localhost:8086"
    = inl (url Sample.r0) ∧
  client_NewClient (url Sample.r0) "admin" "secret" false
    = (Some (Sample.handle None), None) ∧
  ∃ rep w',
    InfluxDB 10%Z "http://localhost:8086" "db" "m" "admin" "secret" true false 0%Z
      Sample.w0 = Done (Running rep) w' ∧
    rep = mkReporter 10%Z true (url Sample.r0) "db" false 0%Z "m"
            "admin" "secret" (Some (length (heap Sample.w0)))
            (Some (Sample.handle None)) ∧
    heap Sample.w0 !! length (heap Sample.w0) = None ∧
    deref (heap w') (tags rep) = Some ∅ ∧
    heap w' = heap Sample.w0 ++ [∅] ∧
    trace w' = trace Sample.w0 ++ [EvNewClient (Some (Sample.handle None)) None].
Proof.
  split; [reflexivity|]. split; [reflexivity|].
  apply (InfluxDB_fresh_tags (E := Sample.env None) 10%Z "http://localhost:8086"
           "db" "m" "admin" "secret" true false 0%Z Sample.w0
           (url Sample.r0) (Some (Sample.handle None))); reflexivity.
Defined.
